(** * c10::SymInt — the tagged symbolic scalar and its dispatch layer

    A shallow embedding of [c10/core/SymInt.cpp]: the single-word scalar
    that is either a 64-bit literal or a disguised owning handle to a
    reference-counted backend node, the normalisation helper
    [normalize_symints], and the arithmetic and comparison operators
    built on it.

    Machine integers are integers of [Z] with the wrap-around written
    out; the reference counts live in a finite map from node addresses
    to positive counts; the operations of the C++ code are computations
    in a small state-and-error monad over that store, the state of the
    backend and a log of the virtual calls made to it. *)

From Stdlib Require Import ZArith Lia Bool List.
From Stdlib Require String.
From stdpp Require Import base option list gmap.

Local Open Scope Z_scope.

(** ** 64-bit machine words *)

(** [static_cast<uint64_t>]. *)
Definition to_u64 (z : Z) : Z := z mod 2 ^ 64.

(** [static_cast<int64_t>] (two's complement). *)
Definition to_i64 (z : Z) : Z := (z + 2 ^ 63) mod 2 ^ 64 - 2 ^ 63.

(** [~x] on a [uint64_t]. *)
Definition not64 (z : Z) : Z := to_u64 (Z.lnot z).

Definition is_u64 (z : Z) : Prop := 0 <= z < 2 ^ 64.
Definition is_i64 (z : Z) : Prop := - 2 ^ 63 <= z < 2 ^ 63.

(** A raw [SymIntNodeImpl*]; [nullptr] is address 0. *)
Abbreviation ptr := Z (only parsing).
Definition nullptr : ptr := 0.

(** ** The scalar *)

(** [class SymInt { int64_t data_; }]. *)
Record SymInt : Type := mkSymInt { data_ : Z }.

(** Modelled from the spec: the header [c10/core/SymInt.h] (the
    discriminant constants [MASK] and [IS_SYM]) is not among the sources.
    Spec 3, invariant I1: a bit pattern in the word decides between the
    two readings, and a well-formed literal never has that pattern.  The
    two top bits are the discriminant; [0b10] marks a node reference, so
    the literals below [-2^62] are the reserved range. *)
Definition MASK : Z := Z.lor (Z.shiftl 1 63) (Z.shiftl 1 62).
Definition IS_SYM : Z := Z.shiftl 1 63.

(** Modelled from the spec: [SymInt::is_symbolic] is declared in the
    missing header.  Spec 4.1: true iff the stored word currently encodes
    a node reference rather than a literal. *)
Definition is_symbolic (s : SymInt) : bool :=
  Z.land MASK (to_u64 (data_ s)) =? IS_SYM.

(** Modelled from the spec: [SymInt::as_int_unchecked] is declared in the
    missing header.  Spec 4.1 ([as_concrete]): returns the literal value
    unmodified. *)
Definition as_int_unchecked (s : SymInt) : Z := data_ s.

(** Modelled from the spec: [SymInt::toSymIntNodeImplUnowned] is declared
    in the missing header.  Spec 4.1 ([from_node]): decoding must
    reconstruct the exact original address from the payload bits; the
    discriminant bits are rebuilt by sign-extending the payload, so that
    both low and high canonical addresses come back. *)
Definition toSymIntNodeImplUnowned (s : SymInt) : ptr :=
  let unextended_bits := Z.land (to_u64 (data_ s)) (not64 MASK) in
  let sign_bit_mask := Z.shiftl 1 (62 - 1) in
  to_u64 (Z.lxor unextended_bits sign_bit_mask - sign_bit_mask).

(** [SymInt::toSymInt] (lines 33-38).  The handle [sin_sp] is consumed:
    [release()] hands over its raw pointer without touching the count, so
    the unit the handle owned now belongs to the returned scalar. *)
Definition toSymInt (sin_sp : ptr) : SymInt :=
  let ptr := to_u64 sin_sp in
  let rep := Z.lor (Z.land ptr (not64 MASK)) IS_SYM in
  mkSymInt (to_i64 rep).

(** The addresses the payload can carry: those that are unchanged when
    their low 62 bits are sign-extended to 64. *)
Definition representable (p : ptr) : Prop :=
  0 <= p < 2 ^ 61 \/ 2 ^ 64 - 2 ^ 61 <= p < 2 ^ 64.

Definition representableb (p : ptr) : bool :=
  ((0 <=? p) && (p <? 2 ^ 61)) || ((2 ^ 64 - 2 ^ 61 <=? p) && (p <? 2 ^ 64)).


(** ** The node interface *)

Module Node.

(** The binary virtual methods of [SymIntNodeImpl] that the scalar
    layer calls, by name ([mod_] stands for [mod]). *)
Inductive method : Type :=
| add | sub | mul | floordiv | mod_ | min | max
| eq | ne | lt | le | gt | ge.

(** One entry of the log of virtual calls. *)
Inductive call : Type :=
| Wrap (self : ptr) (num : Z)
| Binary (m : method) (self other : ptr)
| Neg (self : ptr)
| Bool_ (self : ptr).

Definition is_wrap (c : call) : bool :=
  match c with Wrap _ _ => true | _ => false end.

Definition is_binary (m : method) (c : call) : bool :=
  match c with
  | Binary m' _ _ =>
      match m, m' with
      | add, add | sub, sub | mul, mul | floordiv, floordiv | mod_, mod_
      | min, min | max, max | eq, eq | ne, ne | lt, lt | le, le
      | gt, gt | ge, ge => true
      | _, _ => false
      end
  | _ => false
  end.

End Node.

(** The abstract class [SymIntNodeImpl]: a backend with state [B] gives
    the virtual methods as state transformers.  Each method that returns
    a [SymIntNode] returns the address of the node the new handle points
    to; the backend is total (a backend that throws is outside the
    model). *)
Class SymIntNodeImpl (B : Type) : Type := {
  wrap : ptr -> Z -> B -> ptr * B;
  binary : Node.method -> ptr -> ptr -> B -> ptr * B;
  neg : ptr -> B -> ptr * B;
  bool_ : ptr -> B -> bool * B;
}.

(** ** The store *)

(** The reference counts, as seen from the scalar layer: for each node
    address the number of units owned by live handles and scalars.  The
    counts are positive; an address with no owner is absent. *)
Record state (B : Type) : Type := mkState {
  refcount : gmap Z positive;
  backend : B;
  calls : list Node.call;
}.
Arguments mkState {B} _ _ _.
Arguments refcount {B} _.
Arguments backend {B} _.
Arguments calls {B} _.

Definition count (m : gmap Z positive) (p : ptr) : Z :=
  match m !! p with Some k => Z.pos k | None => 0 end.

(** The indicator of [p = q], to state how a count changes. *)
Definition ind (p q : Z) : Z := if p =? q then 1 else 0.

Definition incr (p : ptr) (m : gmap Z positive) : gmap Z positive :=
  match m !! p with
  | Some k => <[p := Pos.succ k]> m
  | None => <[p := 1%positive]> m
  end.

Definition decr (p : ptr) (m : gmap Z positive) : gmap Z positive :=
  match m !! p with
  | Some k => if (k =? 1)%positive then delete p m else <[p := Pos.pred k]> m
  | None => m
  end.

(** ** Failures and the monad *)

Inductive error : Type :=
| CheckFailed          (* a TORCH_CHECK threw *)
| NullDereference      (* a method called through nullptr *)
| DanglingReference    (* a count touched on a node nobody owns *)
| DivisionByZero.      (* integer division or remainder by zero *)

(** A computation ends with a value or throws; either way it leaves a
    store (for a throw, the store at the throw). *)
Inductive outcome (B A : Type) : Type :=
| Ok (a : A) (st : state B)
| Throw (e : error) (st : state B).
Arguments Ok {B A} _ _.
Arguments Throw {B A} _ _.

Definition M (B A : Type) : Type := state B -> outcome B A.

Definition ret {B A : Type} (a : A) : M B A := fun st => Ok a st.

Definition throw {B A : Type} (e : error) : M B A := fun st => Throw e st.

Definition bind {B A A' : Type} (c : M B A) (k : A -> M B A') : M B A' :=
  fun st => match c st with
            | Ok a st' => k a st'
            | Throw e st' => Throw e st'
            end.

Notation "'let*' x ':=' c 'in' k" := (bind c (fun x => k))
  (at level 10, x name, c at level 100, k at level 200).

Section ScalarLayer.

Context {B : Type} `{SymIntNodeImpl B}.

(** *** Owning handles ([SymIntNode = intrusive_ptr<SymIntNodeImpl>]) *)

(** Modelled from the spec: [c10::intrusive_ptr] is not among the
    sources.  Spec 3, invariant I2 and lifecycle: copying a handle (or
    [reclaim_copy] on a raw pointer) increments the count of a node
    that is owned; a null handle owns nothing. *)
Definition retain (p : ptr) : M B unit := fun st =>
  if p =? nullptr then Ok tt st
  else if count (refcount st) p =? 0 then Throw DanglingReference st
  else Ok tt (mkState (incr p (refcount st)) (backend st) (calls st)).

(** Modelled from the spec: the destructor of [c10::intrusive_ptr] is
    not among the sources.  Spec 3, lifecycle: destroying a handle
    releases the unit it held, if it held one. *)
Definition reset (p : ptr) : M B unit := fun st =>
  if p =? nullptr then Ok tt st
  else if count (refcount st) p =? 0 then Throw DanglingReference st
  else Ok tt (mkState (decr p (refcount st)) (backend st) (calls st)).

(** The handle returned by a virtual method owns one unit of the node
    it points to. *)
Definition adopt (r : ptr) (m : gmap Z positive) : gmap Z positive :=
  if r =? nullptr then m else incr r m.

(** *** Virtual calls *)

Definition live (st : state B) (p : ptr) : bool :=
  negb (p =? nullptr) && negb (count (refcount st) p =? 0).

(** [self->wrap(num)]. *)
Definition call_wrap (self : ptr) (num : Z) : M B ptr := fun st =>
  if self =? nullptr then Throw NullDereference st
  else if negb (live st self) then Throw DanglingReference st
  else
    let '(r, b) := wrap self num (backend st) in
    Ok r (mkState (adopt r (refcount st)) b (calls st ++ [Node.Wrap self num])).

(** [self->m(other)] for a binary method [m]. *)
Definition call_binary (m : Node.method) (self other : ptr) : M B ptr := fun st =>
  if self =? nullptr then Throw NullDereference st
  else if negb (live st self && live st other) then Throw DanglingReference st
  else
    let '(r, b) := binary m self other (backend st) in
    Ok r (mkState (adopt r (refcount st)) b (calls st ++ [Node.Binary m self other])).

(** [self->neg()]. *)
Definition call_neg (self : ptr) : M B ptr := fun st =>
  if self =? nullptr then Throw NullDereference st
  else if negb (live st self) then Throw DanglingReference st
  else
    let '(r, b) := neg self (backend st) in
    Ok r (mkState (adopt r (refcount st)) b (calls st ++ [Node.Neg self])).

(** [self->bool_()]. *)
Definition call_bool (self : ptr) : M B bool := fun st =>
  if self =? nullptr then Throw NullDereference st
  else if negb (live st self) then Throw DanglingReference st
  else
    let '(v, b) := bool_ self (backend st) in
    Ok v (mkState (refcount st) b (calls st ++ [Node.Bool_ self])).

(** *** Construction, copy and destruction of scalars *)

(** Modelled from the spec: the constructor [SymInt(int64_t)] is
    declared in the missing header.  Spec 3 and 8: a scalar built from
    a literal is concrete, and a literal lies in the restricted range;
    line 37 has to ask for the [UNCHECKED] constructor to store a
    tagged word, so the plain one rejects it with a TORCH_CHECK. *)
Definition SymInt_ctor (d : Z) : M B SymInt :=
  if is_symbolic (mkSymInt d) then throw CheckFailed else ret (mkSymInt d).

(** [SymInt::toSymIntNodeImpl] (lines 28-31). *)
Definition toSymIntNodeImpl (s : SymInt) : M B ptr :=
  if negb (is_symbolic s) then throw CheckFailed
  else
    let p := toSymIntNodeImplUnowned s in
    let* _ := retain p in
    ret p.

(** Modelled from the spec: the copy constructor of [SymInt] is
    declared in the missing header.  Spec 3 and 5: a copy of a symbolic
    scalar holds its own counted reference to the same node. *)
Definition SymInt_copy (s : SymInt) : M B SymInt :=
  if is_symbolic s then
    let* n := toSymIntNodeImpl s in
    ret (toSymInt n)
  else ret s.

(** Modelled from the spec: the destructor of [SymInt] is declared in
    the missing header.  Spec 3, lifecycle: a scalar that is destroyed
    releases the unit it held, if it held one. *)
Definition SymInt_destroy (s : SymInt) : M B unit :=
  if is_symbolic s then reset (toSymIntNodeImplUnowned s) else ret tt.

(** A parameter passed by value: copy-constructed from the argument
    when the call starts, destroyed when it returns. *)
Definition by_value {A : Type} (arg : SymInt) (body : SymInt -> M B A) : M B A :=
  let* param := SymInt_copy arg in
  let* r := body param in
  let* _ := SymInt_destroy param in
  ret r.

(** *** [normalize_symints] (lines 8-26) *)

(** Line 15. *)
Definition common_of (a b : ptr) : ptr := if negb (a =? nullptr) then a else b.

(** Lines 17-20 and 21-24: wrap the literal of the side that has no
    node; the statement [a_.toSymInt(a);] packs a copy of the new
    handle into a temporary scalar, which is destroyed at once. *)
Definition wrap_missing (common a : ptr) (a_ : SymInt) : M B ptr :=
  if a =? nullptr then
    let* a' := call_wrap common (as_int_unchecked a_) in
    let* _ := retain a' in
    let* _ := SymInt_destroy (toSymInt a') in
    ret a'
  else ret a.

Definition normalize_symints (a_arg b_arg : SymInt) : M B (ptr * ptr) :=
  by_value a_arg (fun a_ =>
  by_value b_arg (fun b_ =>
    let* a := (if is_symbolic a_ then toSymIntNodeImpl a_ else ret nullptr) in
    let* b := (if is_symbolic b_ then toSymIntNodeImpl b_ else ret nullptr) in
    let common := common_of a b in
    let* a := wrap_missing common a a_ in
    let* b := wrap_missing common b b_ in
    (* return {a, b}: the array holds copies, the locals are destroyed *)
    let* _ := retain a in
    let* _ := retain b in
    let* _ := reset b in
    let* _ := reset a in
    ret (a, b))).

(** *** Operators *)

Definition both_concrete (this sci : SymInt) : bool :=
  negb (is_symbolic this) && negb (is_symbolic sci).

(** The shape shared by lines 55-93 and 139-152: the literal
    computation [lit] when both sides are concrete, else normalise and
    call the node method [m].  [res] is destroyed on return. *)
Definition arith_operator (lit : Z -> Z -> M B SymInt) (m : Node.method)
    (this sci_arg : SymInt) : M B SymInt :=
  by_value sci_arg (fun sci =>
    if both_concrete this sci then lit (data_ this) (data_ sci)
    else
      let* res := normalize_symints this sci in
      let* r := call_binary m (fst res) (snd res) in
      let out := toSymInt r in
      let* _ := reset (snd res) in
      let* _ := reset (fst res) in
      ret out).

(** The shape shared by lines 95-101 and 107-137: the node returned by
    the comparison method is a temporary, destroyed once [bool_] has
    been called on it. *)
Definition cmp_operator (lit : Z -> Z -> bool) (m : Node.method)
    (this sci_arg : SymInt) : M B bool :=
  by_value sci_arg (fun sci =>
    if both_concrete this sci then ret (lit (data_ this) (data_ sci))
    else
      let* res := normalize_symints this sci in
      let* r := call_binary m (fst res) (snd res) in
      let* v := call_bool r in
      let* _ := reset r in
      let* _ := reset (snd res) in
      let* _ := reset (fst res) in
      ret v).

(** Signed overflow wraps (spec 4.1). *)
Definition operator_add : SymInt -> SymInt -> M B SymInt :=
  arith_operator (fun x y => SymInt_ctor (to_i64 (x + y))) Node.add.

Definition operator_sub : SymInt -> SymInt -> M B SymInt :=
  arith_operator (fun x y => SymInt_ctor (to_i64 (x - y))) Node.sub.

Definition operator_mul : SymInt -> SymInt -> M B SymInt :=
  arith_operator (fun x y => SymInt_ctor (to_i64 (x * y))) Node.mul.

(** [data_ / sci.data_] is the division of C++: it truncates. *)
Definition operator_div : SymInt -> SymInt -> M B SymInt :=
  arith_operator
    (fun x y => if y =? 0 then throw DivisionByZero
                else SymInt_ctor (to_i64 (Z.quot x y)))
    Node.floordiv.

(** [data_ % sci.data_]: the remainder of the truncated division. *)
Definition operator_mod : SymInt -> SymInt -> M B SymInt :=
  arith_operator
    (fun x y => if y =? 0 then throw DivisionByZero
                else SymInt_ctor (to_i64 (Z.rem x y)))
    Node.mod_.

(** [std::min(a, b)] is [b] if [b < a], else [a]. *)
Definition SymInt_min : SymInt -> SymInt -> M B SymInt :=
  arith_operator (fun x y => SymInt_ctor (if y <? x then y else x)) Node.min.

(** [std::max(a, b)] is [b] if [a < b], else [a]. *)
Definition SymInt_max : SymInt -> SymInt -> M B SymInt :=
  arith_operator (fun x y => SymInt_ctor (if x <? y then y else x)) Node.max.

Definition operator_eq : SymInt -> SymInt -> M B bool :=
  cmp_operator Z.eqb Node.eq.

(** Lines 103-105: the negation of [operator==]. *)
Definition operator_ne (this sci_arg : SymInt) : M B bool :=
  by_value sci_arg (fun sci =>
    let* v := operator_eq this sci in
    ret (negb v)).

Definition operator_lt : SymInt -> SymInt -> M B bool :=
  cmp_operator Z.ltb Node.lt.

Definition operator_le : SymInt -> SymInt -> M B bool :=
  cmp_operator Z.leb Node.le.

Definition operator_gt : SymInt -> SymInt -> M B bool :=
  cmp_operator Z.gtb Node.gt.

Definition operator_ge : SymInt -> SymInt -> M B bool :=
  cmp_operator Z.geb Node.ge.

(** Unary minus (lines 199-205); the handle read from [s] is a
    temporary, destroyed once the result has been packed. *)
Definition operator_neg (s_arg : SymInt) : M B SymInt :=
  by_value s_arg (fun s =>
    if is_symbolic s then
      let* n := toSymIntNodeImpl s in
      let* r := call_neg n in
      let out := toSymInt r in
      let* _ := reset n in
      ret out
    else SymInt_ctor (to_i64 (- as_int_unchecked s))).

(** *** The operators, by name *)

Inductive arith_op : Type :=
| op_add | op_sub | op_mul | op_div | op_mod | op_min | op_max.

Inductive cmp_op : Type :=
| op_eq | op_ne | op_lt | op_le | op_gt | op_ge.

Definition apply_arith (o : arith_op) : SymInt -> SymInt -> M B SymInt :=
  match o with
  | op_add => operator_add
  | op_sub => operator_sub
  | op_mul => operator_mul
  | op_div => operator_div
  | op_mod => operator_mod
  | op_min => SymInt_min
  | op_max => SymInt_max
  end.

Definition apply_cmp (o : cmp_op) : SymInt -> SymInt -> M B bool :=
  match o with
  | op_eq => operator_eq
  | op_ne => operator_ne
  | op_lt => operator_lt
  | op_le => operator_le
  | op_gt => operator_gt
  | op_ge => operator_ge
  end.

End ScalarLayer.

(** ** The dispatch protocol, in the words of the spec *)

Section Protocol.

Context {B : Type} `{SymIntNodeImpl B}.

(** Spec 4.2: the two node handles of a pair of scalars of which at
    least one is symbolic.  An operand that has a node keeps it; an
    operand that has none is wrapped by the [wrap] of the other one's
    node.  The result lists the handles, the state of the backend and
    the virtual calls made. *)
Definition spec_normalize (a b : SymInt) (bk : B) : ptr * ptr * B * list Node.call :=
  match is_symbolic a, is_symbolic b with
  | true, true =>
      (toSymIntNodeImplUnowned a, toSymIntNodeImplUnowned b, bk, [])
  | true, false =>
      let n := toSymIntNodeImplUnowned a in
      let '(w, bk') := wrap n (data_ b) bk in
      (n, w, bk', [Node.Wrap n (data_ b)])
  | false, true =>
      let n := toSymIntNodeImplUnowned b in
      let '(w, bk') := wrap n (data_ a) bk in
      (w, n, bk', [Node.Wrap n (data_ a)])
  | false, false => (nullptr, nullptr, bk, [])
  end.

(** Spec 4.1: normalise, invoke the matching node method on the two
    handles, and pack the node it returns into a scalar, which then
    owns that node once. *)
Definition spec_dispatch (m : Node.method) (a b : SymInt) (st : state B)
  : outcome B SymInt :=
  let '(na, nb, bk1, log) := spec_normalize a b (backend st) in
  let '(r, bk2) := binary m na nb bk1 in
  Ok (toSymInt r)
     (mkState (incr r (refcount st)) bk2
              (calls st ++ log ++ [Node.Binary m na nb])).

(** Spec 4.1: normalise, invoke the node-level comparison, and coerce
    the node it returns with [bool_]; no count has changed at the end. *)
Definition spec_compare (m : Node.method) (a b : SymInt) (st : state B)
  : outcome B bool :=
  let '(na, nb, bk1, log) := spec_normalize a b (backend st) in
  let '(r, bk2) := binary m na nb bk1 in
  let '(v, bk3) := bool_ r bk2 in
  Ok v (mkState (refcount st) bk3
                (calls st ++ log ++ [Node.Binary m na nb; Node.Bool_ r])).

(** Spec 4.1, unary negation of a symbolic scalar: invoke [neg] on its
    node and pack the node it returns. *)
Definition spec_negate (s : SymInt) (st : state B) : outcome B SymInt :=
  let n := toSymIntNodeImplUnowned s in
  let '(r, bk) := neg n (backend st) in
  Ok (toSymInt r)
     (mkState (incr r (refcount st)) bk (calls st ++ [Node.Neg n])).
(** The node method the spec matches with each operator. *)
Definition method_of_arith (o : arith_op) : Node.method :=
  match o with
  | op_add => Node.add
  | op_sub => Node.sub
  | op_mul => Node.mul
  | op_div => Node.floordiv
  | op_mod => Node.mod_
  | op_min => Node.min
  | op_max => Node.max
  end.

Definition method_of_cmp (o : cmp_op) : Node.method :=
  match o with
  | op_eq => Node.eq
  | op_ne => Node.ne
  | op_lt => Node.lt
  | op_le => Node.le
  | op_gt => Node.gt
  | op_ge => Node.ge
  end.

(** Plain integer arithmetic and comparison, as the spec has them for
    concrete scalars (division is floor division). *)
Definition plain_arith (o : arith_op) (x y : Z) : Z :=
  match o with
  | op_add => x + y
  | op_sub => x - y
  | op_mul => x * y
  | op_div => x / y
  | op_mod => x mod y
  | op_min => Z.min x y
  | op_max => Z.max x y
  end.

Definition plain_cmp (o : cmp_op) (x y : Z) : bool :=
  match o with
  | op_eq => x =? y
  | op_ne => negb (x =? y)
  | op_lt => x <? y
  | op_le => x <=? y
  | op_gt => y <? x
  | op_ge => y <=? x
  end.

End Protocol.

(** ** Expressions and sequences of operations *)

Section Sessions.

Context {B : Type} `{SymIntNodeImpl B}.

Definition outcome_map {A A' : Type} (f : A -> A') (o : outcome B A) : outcome B A' :=
  match o with
  | Ok a st => Ok (f a) st
  | Throw e st => Throw e st
  end.

(** The log and the counts an outcome leaves. *)
Definition calls_of {A : Type} (o : outcome B A) : list Node.call :=
  match o with Ok _ st | Throw _ st => calls st end.

Definition refcount_of {A : Type} (o : outcome B A) : gmap Z positive :=
  match o with Ok _ st | Throw _ st => refcount st end.

(** The expression [-(-x) == x]; its two temporaries are destroyed when
    it has been evaluated, the later one first. *)
Definition neg_neg_eq (x : SymInt) : M B bool :=
  let* y := operator_neg x in
  let* z := operator_neg y in
  let* v := operator_eq z x in
  let* _ := SymInt_destroy z in
  let* _ := SymInt_destroy y in
  ret v.

(** One step of a client of the scalar layer.  The operands are scalars
    that are alive, named by their position; a step that makes a scalar
    puts it behind them. *)
Inductive instr : Type :=
| Copy (i : nat)
| Arith (o : arith_op) (i j : nat)
| Negate (i : nat)
| Compare (o : cmp_op) (i j : nat)
| Normalize (i j : nat).

(** A position past the end reads as the literal 0. *)
Definition operand (env : list SymInt) (i : nat) : SymInt :=
  nth i env (mkSymInt 0).

(** [Normalize] calls the helper as the operators do, when one side at
    least is symbolic, and drops the array it returns. *)
Definition exec (c : instr) (env : list SymInt) : M B (list SymInt) :=
  match c with
  | Copy i =>
      let* s := SymInt_copy (operand env i) in
      ret (env ++ [s])
  | Arith o i j =>
      let* s := apply_arith o (operand env i) (operand env j) in
      ret (env ++ [s])
  | Negate i =>
      let* s := operator_neg (operand env i) in
      ret (env ++ [s])
  | Compare o i j =>
      let* _ := apply_cmp o (operand env i) (operand env j) in
      ret env
  | Normalize i j =>
      if both_concrete (operand env i) (operand env j) then ret env
      else
        let* res := normalize_symints (operand env i) (operand env j) in
        let* _ := reset (snd res) in
        let* _ := reset (fst res) in
        ret env
  end.

Fixpoint run (prog : list instr) (env : list SymInt) : M B (list SymInt) :=
  match prog with
  | [] => ret env
  | c :: prog' =>
      let* env' := exec c env in
      run prog' env'
  end.

Fixpoint discard (l : list SymInt) : M B unit :=
  match l with
  | [] => ret tt
  | s :: l' =>
      let* _ := SymInt_destroy s in
      discard l'
  end.

(** Run [prog] on the scalars [env0], then destroy every scalar it has
    made, the last one first. *)
Definition session (prog : list instr) (env0 : list SymInt) : M B unit :=
  let* env := run prog env0 in
  discard (rev (skipn (length env0) env)).

(** The unit a scalar owns on the node [q]: one if it is symbolic and
    [q] is its node, none otherwise. *)
Definition unit_of (s : SymInt) (q : Z) : Z :=
  if is_symbolic s then ind (toSymIntNodeImplUnowned s) q else 0.

(** The units the scalars of [l] own on the node [q]. *)
Definition owners (l : list SymInt) (q : Z) : Z :=
  fold_right (fun s acc => unit_of s q + acc) 0 l.

(** A scalar a client may hold: a 64-bit word that, if symbolic, refers
    to a node. *)
Definition well_formed (s : SymInt) : Prop :=
  is_i64 (data_ s) /\ (is_symbolic s = true -> toSymIntNodeImplUnowned s <> nullptr).

(** The failures of the literal computations: a result in the reserved
    range, a division by zero. *)
Definition arithmetic_failure (e : error) : Prop :=
  e = CheckFailed \/ e = DivisionByZero.

(** An operation that makes a scalar: the scalar owns one unit more on
    its node, and no other count has changed. *)
Definition produces (o : outcome B SymInt) (st : state B) : Prop :=
  match o with
  | Ok out st' =>
      well_formed out /\
      forall q, count (refcount st') q = count (refcount st) q + unit_of out q
  | Throw e _ => arithmetic_failure e
  end.

(** An operation that makes no scalar: no count has changed. *)
Definition preserves {A : Type} (o : outcome B A) (st : state B) : Prop :=
  match o with
  | Ok _ st' => refcount st' = refcount st
  | Throw e _ => arithmetic_failure e
  end.

(** The store [st] and the scalars [env] of a client that started from
    [st0] and [env0]: the scalars made since own exactly the units by
    which the counts have grown. *)
Definition balanced (st0 : state B) (env0 : list SymInt)
    (st : state B) (env : list SymInt) : Prop :=
  exists made,
    env = env0 ++ made /\ Forall well_formed made /\
    forall q, count (refcount st) q = count (refcount st0) q + owners made q.

(** The operands of [prog] are positions of scalars that exist when the
    step runs, [n] of them at the start. *)
Fixpoint well_scoped (prog : list instr) (n : nat) : bool :=
  match prog with
  | [] => true
  | Copy i :: prog' => (i <? n)%nat && well_scoped prog' (S n)
  | Arith _ i j :: prog' => (i <? n)%nat && (j <? n)%nat && well_scoped prog' (S n)
  | Negate i :: prog' => (i <? n)%nat && well_scoped prog' (S n)
  | Compare _ i j :: prog' => (i <? n)%nat && (j <? n)%nat && well_scoped prog' n
  | Normalize i j :: prog' => (i <? n)%nat && (j <? n)%nat && well_scoped prog' n
  end.

(** What a step of a session leaves: a balanced store, or a failure of
    a literal computation. *)
Definition step_ok (st0 : state B) (env0 : list SymInt) (o : outcome B (list SymInt)) : Prop :=
  match o with
  | Ok env' st' => balanced st0 env0 st' env'
  | Throw e _ => arithmetic_failure e
  end.

(** Every scalar of [l] is symbolic. *)
Definition all_symbolic (l : list SymInt) : Prop :=
  Forall (fun s => is_symbolic s = true) l.

End Sessions.

(** ** Well-formed stores and lawful backends *)

(** A node address a handle can carry into a scalar: not null, and
    inside the range of the payload. *)
Definition valid_ptr (p : ptr) : Prop := p <> nullptr /\ representable p.

Section WellFormed.

Context {B : Type} `{SymIntNodeImpl B}.

(** Invariant I2 of the spec, for one scalar in one store: the word is
    a 64-bit literal, and if it is symbolic its node is not null and
    has an owner. *)
Definition owned (st : state B) (s : SymInt) : Prop :=
  is_i64 (data_ s) /\
  (is_symbolic s = true ->
   toSymIntNodeImplUnowned s <> nullptr /\
   0 < count (refcount st) (toSymIntNodeImplUnowned s)).

(** The node a scalar refers to, with [nullptr] for a concrete one. *)
Definition node_of (s : SymInt) : ptr :=
  if is_symbolic s then toSymIntNodeImplUnowned s else nullptr.

(** The backend hands out addresses of nodes: every handle a method
    returns points to a node that the payload can carry. *)
Definition lawful : Prop :=
  (forall self num b, valid_ptr (fst (wrap self num b))) /\
  (forall m self other b, valid_ptr (fst (binary m self other b))) /\
  (forall self b, valid_ptr (fst (neg self b))).

End WellFormed.

(** ** An instrumented backend *)

Module Numbering.

(** A backend that numbers the nodes it makes: every method that
    returns a node makes a new one, at the next 16-aligned address, and
    [bool_] answers with a fixed verdict. *)
Record t : Type := mk { made : nat; verdict : bool }.

Definition address (k : nat) : ptr := 16 * (1 + Z.of_nat k mod 2 ^ 32).

Definition fresh (b : t) : ptr * t :=
  (address (made b), mk (S (made b)) (verdict b)).

#[global] Instance impl : SymIntNodeImpl t := {|
  wrap _ _ := fresh;
  binary _ _ _ := fresh;
  neg _ := fresh;
  bool_ _ b := (verdict b, b);
|}.

(** A store with one node, at address [n], owned once from outside. *)
Definition store (n : ptr) (v : bool) : state t :=
  mkState {[ n := 1%positive ]} (mk 0 v) [].

End Numbering.

(** ** The other members of SymInt.cpp *)

(** The virtual methods of [SymIntNodeImpl] that the scalar calls outside
    the dispatch layer: [guard_int(file, line)] and [str()].  They are
    state transformers of the backend like the others, and total. *)
Class SymIntNodeForcing (B : Type) : Type := {
  guard_int : ptr -> String.string -> Z -> B -> Z * B;
  str : ptr -> B -> String.string * B;
}.

(** What [operator<<] puts on the stream: a call of the inserter of
    [int64_t] or of the one of [std::string].  How the stream formats
    them is the stream's business. *)
Inductive ostream_item : Type :=
| put_int64 (v : Z)
| put_string (s : String.string).

Section OtherMembers.

Context {B : Type} `{SymIntNodeImpl B} `{SymIntNodeForcing B}.

(** [self->guard_int(file, line)].  The log of [state] keeps the calls
    of the dispatch layer only; this call shows in the backend state. *)
Definition call_guard_int (self : ptr) (file : String.string) (line : Z) : M B Z :=
  fun st =>
  if self =? nullptr then Throw NullDereference st
  else if negb (live st self) then Throw DanglingReference st
  else
    let '(v, b) := guard_int self file line (backend st) in
    Ok v (mkState (refcount st) b (calls st)).

(** [self->str()]. *)
Definition call_str (self : ptr) : M B String.string := fun st =>
  if self =? nullptr then Throw NullDereference st
  else if negb (live st self) then Throw DanglingReference st
  else
    let '(v, b) := str self (backend st) in
    Ok v (mkState (refcount st) b (calls st)).

(** [SymInt::guard_int] (lines 40-46); the local handle [a] is
    destroyed on return. *)
Definition SymInt_guard_int (this : SymInt) (file : String.string) (line : Z) : M B Z :=
  if negb (is_symbolic this) then ret (data_ this)
  else
    let* a := toSymIntNodeImpl this in
    let* v := call_guard_int a file line in
    let* _ := reset a in
    ret v.

(** [operator<<] (lines 190-197); [s] is passed by value, and the
    handle read from it is a temporary of the statement. *)
Definition operator_shl (os : list ostream_item) (s_arg : SymInt)
  : M B (list ostream_item) :=
  by_value s_arg (fun s =>
    if is_symbolic s then
      let* n := toSymIntNodeImpl s in
      let* txt := call_str n in
      let* _ := reset n in
      ret (os ++ [put_string txt])
    else ret (os ++ [put_int64 (as_int_unchecked s)])).

(** The argument [c10::SymInt(sci)] of lines 162-188: a temporary built
    by the constructor from the literal, handed to the operator, and
    destroyed after the call. *)
Definition with_literal {A : Type} (sci : Z) (body : SymInt -> M B A) : M B A :=
  let* tmp := SymInt_ctor sci in
  let* r := body tmp in
  let* _ := SymInt_destroy tmp in
  ret r.

(** Lines 162-188. *)
Definition operator_lt_int (this : SymInt) (sci : Z) : M B bool :=
  with_literal sci (operator_lt this).

Definition operator_le_int (this : SymInt) (sci : Z) : M B bool :=
  with_literal sci (operator_le this).

Definition operator_gt_int (this : SymInt) (sci : Z) : M B bool :=
  with_literal sci (operator_gt this).

Definition operator_ge_int (this : SymInt) (sci : Z) : M B bool :=
  with_literal sci (operator_ge this).

Definition operator_eq_int (this : SymInt) (sci : Z) : M B bool :=
  with_literal sci (operator_eq this).

Definition operator_ne_int (this : SymInt) (sci : Z) : M B bool :=
  with_literal sci (operator_ne this).

Definition operator_mul_int (this : SymInt) (sci : Z) : M B SymInt :=
  with_literal sci (operator_mul this).

Definition apply_cmp_int (o : cmp_op) : SymInt -> Z -> M B bool :=
  match o with
  | op_eq => operator_eq_int
  | op_ne => operator_ne_int
  | op_lt => operator_lt_int
  | op_le => operator_le_int
  | op_gt => operator_gt_int
  | op_ge => operator_ge_int
  end.

(** Modelled from the spec: the move assignment of [SymInt] is declared
    in the missing header.  Spec 3, lifecycle: a write to the word first
    releases the unit it held, if it held one; the word of the temporary
    is taken over with the unit it owns.  The result is the new value of
    the assigned scalar. *)
Definition SymInt_move_assign (this tmp : SymInt) : M B SymInt :=
  let* _ := SymInt_destroy this in
  ret tmp.

(** [operator*=] and [operator+=] (lines 154-160): the product or sum is
    computed first, then assigned.  The result is the new value of
    [*this]. *)
Definition operator_mul_assign (this sci_arg : SymInt) : M B SymInt :=
  by_value sci_arg (fun sci =>
    let* r := operator_mul this sci in
    SymInt_move_assign this r).

Definition operator_add_assign (this sci_arg : SymInt) : M B SymInt :=
  by_value sci_arg (fun sci =>
    let* r := operator_add this sci in
    SymInt_move_assign this r).

End OtherMembers.

(** The instrumented backend forces a node to its address and renders
    every node as the same text. *)
#[global] Instance Numbering_forcing : SymIntNodeForcing Numbering.t := {|
  guard_int self _ _ b := (self, b);
  str _ b := (String.String (Ascii.ascii_of_nat 110) String.EmptyString, b);
|}.

(** ** Facts on the word layout *)

Section WordLayout.

Lemma MASK_value : MASK = 3 * 2 ^ 62.
Proof. reflexivity. Qed.

Lemma IS_SYM_value : IS_SYM = 2 ^ 63.
Proof. reflexivity. Qed.

Lemma not64_MASK : not64 MASK = Z.ones 62.
Proof. reflexivity. Qed.

Lemma testbit_u64_high (u n : Z) : is_u64 u -> 64 <= n -> Z.testbit u n = false.
Proof.
  intros Hu Hn. unfold is_u64 in Hu.
  destruct (Z.eq_dec u 0) as [-> | Hnz]; [apply Z.bits_0|].
  apply Z.bits_above_log2; [lia|].
  apply Z.lt_le_trans with 64; [|assumption].
  apply Z.log2_lt_pow2; lia.
Qed.

Lemma land_MASK (u : Z) : is_u64 u -> Z.land MASK u = 2 ^ 62 * (u / 2 ^ 62).
Proof.
  intros Hu.
  replace MASK with (Z.shiftl 3 62) by reflexivity.
  rewrite (Z.mul_comm (2 ^ 62)), <- Z.shiftl_mul_pow2 by lia.
  rewrite <- Z.shiftr_div_pow2 by lia.
  apply Z.bits_inj'. intros n Hn.
  rewrite Z.land_spec.
  destruct (Z.lt_ge_cases n 62) as [Hlt | Hge].
  - rewrite !Z.shiftl_spec_low by lia. reflexivity.
  - rewrite !Z.shiftl_spec by lia.
    rewrite Z.shiftr_spec by lia.
    replace (n - 62 + 62) with n by lia.
    destruct (Z.lt_ge_cases n 64) as [Hlt | Hge'].
    + assert (Hc : n - 62 = 0 \/ n - 62 = 1) by lia.
      destruct Hc as [-> | ->]; reflexivity.
    + rewrite (testbit_u64_high u n) by assumption.
      apply andb_false_r.
Qed.

Lemma land_pow2_small (x n : Z) : 0 <= n -> 0 <= x < 2 ^ n -> Z.land x (2 ^ n) = 0.
Proof.
  intros Hn Hx. apply Z.bits_inj'. intros m Hm.
  rewrite Z.land_spec, Z.bits_0, Z.pow2_bits_eqb by assumption.
  destruct (Z.eqb_spec n m) as [<- | Hne]; [|apply andb_false_r].
  rewrite andb_true_r.
  destruct (Z.eq_dec x 0) as [-> | Hnz]; [apply Z.bits_0|].
  apply Z.bits_above_log2; [lia|]. apply Z.log2_lt_pow2; lia.
Qed.

Lemma lxor_pow2_small (x n : Z) : 0 <= n -> 0 <= x < 2 ^ n -> Z.lxor x (2 ^ n) = x + 2 ^ n.
Proof.
  intros Hn Hx. symmetry. apply Z.add_nocarry_lxor. now apply land_pow2_small.
Qed.

Lemma lor_pow2_small (x n : Z) : 0 <= n -> 0 <= x < 2 ^ n -> Z.lor x (2 ^ n) = x + 2 ^ n.
Proof.
  intros Hn Hx. rewrite <- Z.lxor_lor by now apply land_pow2_small.
  now apply lxor_pow2_small.
Qed.

Lemma lxor_pow2_large (x n : Z) :
  0 <= n -> 2 ^ n <= x < 2 ^ (n + 1) -> Z.lxor x (2 ^ n) = x - 2 ^ n.
Proof.
  intros Hn Hx. rewrite Z.pow_add_r, Z.pow_1_r in Hx by lia.
  replace x with (Z.lxor (x - 2 ^ n) (2 ^ n)) at 1
    by (rewrite lxor_pow2_small by lia; lia).
  now rewrite Z.lxor_assoc, Z.lxor_nilpotent, Z.lxor_0_r.
Qed.

Lemma to_u64_range (z : Z) : is_u64 (to_u64 z).
Proof. unfold is_u64, to_u64. apply Z.mod_pos_bound. lia. Qed.

Lemma to_i64_range (z : Z) : is_i64 (to_i64 z).
Proof.
  unfold is_i64, to_i64.
  pose proof (Z.mod_pos_bound (z + 2 ^ 63) (2 ^ 64)). lia.
Qed.

Lemma to_u64_small (z : Z) : is_u64 z -> to_u64 z = z.
Proof. unfold is_u64, to_u64. intros. now apply Z.mod_small. Qed.

Lemma to_i64_small (z : Z) : is_i64 z -> to_i64 z = z.
Proof. unfold is_i64, to_i64. intros. rewrite Z.mod_small; lia. Qed.

Lemma to_u64_i64 (d : Z) : is_i64 d -> to_u64 d = if d <? 0 then d + 2 ^ 64 else d.
Proof.
  unfold is_i64, to_u64. intros Hd.
  destruct (Z.ltb_spec d 0).
  - symmetry. apply Z.mod_unique_pos with (-1); lia.
  - apply Z.mod_small. lia.
Qed.

Lemma to_i64_u64 (u : Z) : is_u64 u -> to_i64 u = if u <? 2 ^ 63 then u else u - 2 ^ 64.
Proof.
  unfold is_u64, to_i64. intros Hu.
  destruct (Z.ltb_spec u (2 ^ 63)).
  - rewrite Z.mod_small; lia.
  - rewrite <- (Z.mod_unique_pos (u + 2 ^ 63) (2 ^ 64) 1 (u - 2 ^ 63)); lia.
Qed.

(** A word is read as a node reference exactly when its literal lies
    in the reserved range below [-2^62]. *)
Lemma is_symbolic_spec (d : Z) :
  is_i64 d -> is_symbolic (mkSymInt d) = true <-> d < - 2 ^ 62.
Proof.
  intros Hd. unfold is_symbolic. cbn [data_].
  rewrite land_MASK by apply to_u64_range.
  rewrite to_u64_i64 by assumption. unfold is_i64 in Hd.
  rewrite IS_SYM_value, Z.eqb_eq.
  destruct (Z.ltb_spec d 0); split; intros H'.
  - assert ((d + 2 ^ 64) / 2 ^ 62 = 2) by lia.
    pose proof (Z.mul_div_le (d + 2 ^ 64) (2 ^ 62)).
    pose proof (Z.mul_succ_div_gt (d + 2 ^ 64) (2 ^ 62)). lia.
  - replace ((d + 2 ^ 64) / 2 ^ 62) with 2; [reflexivity|].
    apply Z.div_unique with (d + 2 ^ 64 - 2 ^ 63); lia.
  - assert (d / 2 ^ 62 = 2) by lia.
    pose proof (Z.mul_div_le d (2 ^ 62)). lia.
  - lia.
Qed.

Lemma is_symbolic_false (d : Z) :
  is_i64 d -> is_symbolic (mkSymInt d) = false <-> - 2 ^ 62 <= d.
Proof.
  intros Hd. pose proof (is_symbolic_spec d Hd) as Hs.
  destruct (is_symbolic (mkSymInt d)); split; intros H'; try reflexivity.
  - discriminate.
  - destruct Hs as [Hs _]. specialize (Hs eq_refl). lia.
  - destruct (Z.lt_ge_cases d (- 2 ^ 62)) as [Hlt|]; [|lia].
    apply Hs in Hlt. discriminate.
Qed.

Lemma toSymInt_data (p : ptr) :
  is_u64 p -> data_ (toSymInt p) = p mod 2 ^ 62 - 2 ^ 63.
Proof.
  intros Hp. unfold toSymInt. cbn [data_].
  rewrite to_u64_small by assumption.
  rewrite not64_MASK, Z.land_ones by lia.
  pose proof (Z.mod_pos_bound p (2 ^ 62)).
  rewrite IS_SYM_value, lor_pow2_small by lia.
  rewrite to_i64_u64 by (unfold is_u64; lia).
  destruct (Z.ltb_spec (p mod 2 ^ 62 + 2 ^ 63) (2 ^ 63)); lia.
Qed.

Lemma toSymInt_i64 (p : ptr) : is_i64 (data_ (toSymInt p)).
Proof. apply to_i64_range. Qed.

(** Line 36 always sets the discriminant: the packed word is symbolic. *)
Lemma is_symbolic_toSymInt (p : ptr) : is_u64 p -> is_symbolic (toSymInt p) = true.
Proof.
  intros Hp. pose proof (toSymInt_data p Hp) as Hd.
  pose proof (toSymInt_i64 p) as Hi.
  destruct (toSymInt p) as [d]. cbn [data_] in *.
  apply is_symbolic_spec; [assumption|].
  pose proof (Z.mod_pos_bound p (2 ^ 62)). lia.
Qed.

Lemma mod_62_of_u64 (d : Z) : to_u64 d mod 2 ^ 62 = d mod 2 ^ 62.
Proof.
  unfold to_u64.
  pose proof (Z.mod_pos_bound d (2 ^ 62)).
  pose proof (Z.div_mod d (2 ^ 64)). pose proof (Z.div_mod d (2 ^ 62)).
  symmetry. apply Z.mod_unique_pos with (d / 2 ^ 62 - 4 * (d / 2 ^ 64)); lia.
Qed.

(** The decoded address, as arithmetic on the payload. *)
Lemma toSymIntNodeImplUnowned_spec (s : SymInt) :
  toSymIntNodeImplUnowned s =
  if data_ s mod 2 ^ 62 <? 2 ^ 61 then data_ s mod 2 ^ 62
  else data_ s mod 2 ^ 62 + (2 ^ 64 - 2 ^ 62).
Proof.
  unfold toSymIntNodeImplUnowned.
  rewrite not64_MASK, Z.land_ones, mod_62_of_u64 by lia.
  change (Z.shiftl 1 (62 - 1)) with (2 ^ 61).
  pose proof (Z.mod_pos_bound (data_ s) (2 ^ 62)) as Hr.
  set (r := data_ s mod 2 ^ 62) in *.
  destruct (Z.ltb_spec r (2 ^ 61)).
  - rewrite lxor_pow2_small by lia.
    replace (r + 2 ^ 61 - 2 ^ 61) with r by lia.
    apply to_u64_small. unfold is_u64. lia.
  - rewrite lxor_pow2_large by (change (2 ^ (61 + 1)) with (2 ^ 62); lia).
    unfold to_u64. symmetry. apply Z.mod_unique_pos with (-1); lia.
Qed.

Lemma toSymIntNodeImplUnowned_u64 (s : SymInt) : is_u64 (toSymIntNodeImplUnowned s).
Proof. apply to_u64_range. Qed.

Lemma toSymIntNodeImplUnowned_representable (s : SymInt) :
  representable (toSymIntNodeImplUnowned s).
Proof.
  rewrite toSymIntNodeImplUnowned_spec. unfold representable.
  pose proof (Z.mod_pos_bound (data_ s) (2 ^ 62)).
  destruct (Z.ltb_spec (data_ s mod 2 ^ 62) (2 ^ 61)); lia.
Qed.

(** Decoding undoes packing exactly on the representable addresses. *)
Lemma decode_toSymInt (p : ptr) :
  is_u64 p -> toSymIntNodeImplUnowned (toSymInt p) = p <-> representable p.
Proof.
  intros Hp. split.
  - intros <-. apply toSymIntNodeImplUnowned_representable.
  - intros Hr. rewrite toSymIntNodeImplUnowned_spec, toSymInt_data by assumption.
    pose proof (Z.mod_pos_bound p (2 ^ 62)).
    assert (Hm : (p mod 2 ^ 62 - 2 ^ 63) mod 2 ^ 62 = p mod 2 ^ 62)
      by (symmetry; apply Z.mod_unique_pos with (-2); lia).
    rewrite Hm. clear Hm. unfold is_u64 in Hp.
    destruct Hr as [Hr | Hr].
    + rewrite Z.mod_small by lia.
      destruct (Z.ltb_spec p (2 ^ 61)); lia.
    + assert (Hm : p mod 2 ^ 62 = p - (2 ^ 64 - 2 ^ 62))
        by (symmetry; apply Z.mod_unique_pos with 3; lia).
      rewrite Hm.
      destruct (Z.ltb_spec (p - (2 ^ 64 - 2 ^ 62)) (2 ^ 61)); lia.
Qed.

(** Packing undoes decoding on every symbolic word. *)
Lemma toSymInt_decode (s : SymInt) :
  is_i64 (data_ s) -> is_symbolic s = true ->
  toSymInt (toSymIntNodeImplUnowned s) = s.
Proof.
  intros Hi Hs. destruct s as [d]. cbn [data_] in Hi.
  apply is_symbolic_spec in Hs; [|assumption].
  pose proof (toSymInt_data _ (toSymIntNodeImplUnowned_u64 (mkSymInt d))) as Hd.
  destruct (toSymInt _) as [d']. cbn [data_] in Hd. f_equal. rewrite Hd.
  rewrite toSymIntNodeImplUnowned_spec. cbn [data_]. unfold is_i64 in Hi.
  assert (Hm : d mod 2 ^ 62 = d + 2 ^ 63)
    by (symmetry; apply Z.mod_unique_pos with (-2); lia).
  rewrite Hm.
  destruct (Z.ltb_spec (d + 2 ^ 63) (2 ^ 61)).
  - rewrite Z.mod_small; lia.
  - rewrite <- (Z.mod_unique_pos (d + 2 ^ 63 + (2 ^ 64 - 2 ^ 62)) (2 ^ 62) 3 (d + 2 ^ 63)); lia.
Qed.

End WordLayout.

(** ** Facts on the reference counts *)

Section Counts.

Implicit Types (m : gmap Z positive) (p q : Z).

Lemma ind_bounds p q : 0 <= ind p q <= 1.
Proof. unfold ind. destruct (p =? q); lia. Qed.

Lemma ind_refl p : ind p p = 1.
Proof. unfold ind. now rewrite Z.eqb_refl. Qed.

Lemma ind_neq p q : p <> q -> ind p q = 0.
Proof. unfold ind. intros Hne. now destruct (Z.eqb_spec p q). Qed.

Lemma count_nonneg m p : 0 <= count m p.
Proof. unfold count. destruct (m !! p); lia. Qed.

Lemma count_incr p q m : count (incr p m) q = count m q + ind p q.
Proof.
  unfold count, incr, ind.
  destruct (Z.eqb_spec p q) as [<- | Hne].
  - destruct (m !! p) eqn:Hp; rewrite lookup_insert_eq; lia.
  - destruct (m !! p); rewrite lookup_insert_ne by assumption; lia.
Qed.

Lemma count_decr p q m : count (decr p m) q = Z.max 0 (count m q - ind p q).
Proof.
  unfold count, decr, ind.
  destruct (Z.eqb_spec p q) as [<- | Hne].
  - destruct (m !! p) as [k|] eqn:Hp; [|rewrite Hp; lia].
    destruct (Pos.eqb_spec k 1) as [-> | Hk].
    + rewrite lookup_delete_eq. lia.
    + rewrite lookup_insert_eq, Pos2Z.inj_pred by assumption. lia.
  - destruct (m !! p) as [k|] eqn:Hp; [|destruct (m !! q); lia].
    destruct (Pos.eqb_spec k 1) as [-> | Hk].
    + rewrite lookup_delete_ne by assumption. destruct (m !! q); lia.
    + rewrite lookup_insert_ne by assumption. destruct (m !! q); lia.
Qed.

(** A store is determined by its counts. *)
Lemma count_ext m1 m2 : (forall q, count m1 q = count m2 q) -> m1 = m2.
Proof.
  intros Hc. apply map_eq. intros q. specialize (Hc q). unfold count in Hc.
  destruct (m1 !! q), (m2 !! q); try reflexivity; try lia.
  f_equal. lia.
Qed.

Lemma decr_incr p m : decr p (incr p m) = m.
Proof.
  apply count_ext. intros q. rewrite count_decr, count_incr.
  pose proof (count_nonneg m q). pose proof (ind_bounds p q). lia.
Qed.

Lemma incr_decr p m : 0 < count m p -> incr p (decr p m) = m.
Proof.
  intros Hp. apply count_ext. intros q. rewrite count_incr, count_decr.
  pose proof (count_nonneg m q). unfold ind.
  destruct (Z.eqb_spec p q) as [<- | Hne]; lia.
Qed.

Lemma incr_comm p q m : incr p (incr q m) = incr q (incr p m).
Proof. apply count_ext. intros r. rewrite !count_incr. lia. Qed.

End Counts.


(** ** Running the primitives *)

Ltac count_facts :=
  repeat match goal with
    | |- context [ind ?p ?q] =>
        lazymatch goal with
        | _ : 0 <= ind p q <= 1 |- _ => fail
        | _ => pose proof (ind_bounds p q)
        end
    | |- context [count ?m ?q] =>
        lazymatch goal with
        | _ : 0 <= count m q |- _ => fail
        | _ => pose proof (count_nonneg m q)
        end
    end.

Ltac count_norm :=
  cbn [refcount backend calls fst snd] in *;
  repeat first [ rewrite count_incr in * | rewrite count_decr in *
               | rewrite ind_refl in * ].

Ltac count_solve := count_norm; count_facts; lia.

Section Execution.

Context {B : Type} `{SymIntNodeImpl B}.
Implicit Types (st : state B) (s : SymInt) (p q : Z).

Lemma bind_Ok {A A' : Type} (c : M B A) (k : A -> M B A') st a st' :
  c st = Ok a st' -> bind c k st = k a st'.
Proof. unfold bind. now intros ->. Qed.

Lemma bind_Throw {A A' : Type} (c : M B A) (k : A -> M B A') st e st' :
  c st = Throw e st' -> bind c k st = Throw e st'.
Proof. unfold bind. now intros ->. Qed.

Lemma bind_assoc {A A' A'' : Type} (c : M B A) (k : A -> M B A') (k' : A' -> M B A'') st :
  bind (bind c k) k' st = bind c (fun x => bind (k x) k') st.
Proof. unfold bind. now destruct (c st). Qed.

Lemma bind_ret {A A' : Type} (a : A) (k : A -> M B A') st :
  bind (ret a) k st = k a st.
Proof. reflexivity. Qed.

Lemma retain_null st : retain nullptr st = Ok tt st.
Proof. reflexivity. Qed.

Lemma retain_live p st :
  p <> nullptr -> 0 < count (refcount st) p ->
  retain p st = Ok tt (mkState (incr p (refcount st)) (backend st) (calls st)).
Proof.
  intros Hp Hc. unfold retain.
  destruct (Z.eqb_spec p nullptr); [contradiction|].
  destruct (Z.eqb_spec (count (refcount st) p) 0); [lia|reflexivity].
Qed.

Lemma reset_live p st :
  p <> nullptr -> 0 < count (refcount st) p ->
  reset p st = Ok tt (mkState (decr p (refcount st)) (backend st) (calls st)).
Proof.
  intros Hp Hc. unfold reset.
  destruct (Z.eqb_spec p nullptr); [contradiction|].
  destruct (Z.eqb_spec (count (refcount st) p) 0); [lia|reflexivity].
Qed.

Lemma live_true p st :
  p <> nullptr -> 0 < count (refcount st) p -> live st p = true.
Proof.
  intros Hp Hc. unfold live.
  destruct (Z.eqb_spec p nullptr); [contradiction|].
  destruct (Z.eqb_spec (count (refcount st) p) 0); [lia|reflexivity].
Qed.

Lemma adopt_valid r m : r <> nullptr -> adopt r m = incr r m.
Proof. unfold adopt. intros Hr. now destruct (Z.eqb_spec r nullptr). Qed.

Lemma call_wrap_live self num st :
  self <> nullptr -> 0 < count (refcount st) self ->
  call_wrap self num st =
  Ok (fst (wrap self num (backend st)))
     (mkState (adopt (fst (wrap self num (backend st))) (refcount st))
              (snd (wrap self num (backend st)))
              (calls st ++ [Node.Wrap self num])).
Proof.
  intros Hp Hc. unfold call_wrap.
  rewrite live_true by assumption.
  destruct (Z.eqb_spec self nullptr); [contradiction|].
  cbn [negb]. now destruct (wrap self num (backend st)).
Qed.

Lemma call_binary_live m self other st :
  self <> nullptr -> 0 < count (refcount st) self ->
  other <> nullptr -> 0 < count (refcount st) other ->
  call_binary m self other st =
  Ok (fst (binary m self other (backend st)))
     (mkState (adopt (fst (binary m self other (backend st))) (refcount st))
              (snd (binary m self other (backend st)))
              (calls st ++ [Node.Binary m self other])).
Proof.
  intros Hp Hc Hq Hd. unfold call_binary.
  rewrite !live_true by assumption.
  destruct (Z.eqb_spec self nullptr); [contradiction|].
  cbn [negb andb]. now destruct (binary m self other (backend st)).
Qed.

Lemma call_neg_live self st :
  self <> nullptr -> 0 < count (refcount st) self ->
  call_neg self st =
  Ok (fst (neg self (backend st)))
     (mkState (adopt (fst (neg self (backend st))) (refcount st))
              (snd (neg self (backend st)))
              (calls st ++ [Node.Neg self])).
Proof.
  intros Hp Hc. unfold call_neg.
  rewrite live_true by assumption.
  destruct (Z.eqb_spec self nullptr); [contradiction|].
  cbn [negb]. now destruct (neg self (backend st)).
Qed.

Lemma call_bool_live self st :
  self <> nullptr -> 0 < count (refcount st) self ->
  call_bool self st =
  Ok (fst (bool_ self (backend st)))
     (mkState (refcount st) (snd (bool_ self (backend st)))
              (calls st ++ [Node.Bool_ self])).
Proof.
  intros Hp Hc. unfold call_bool.
  rewrite live_true by assumption.
  destruct (Z.eqb_spec self nullptr); [contradiction|].
  cbn [negb]. now destruct (bool_ self (backend st)).
Qed.

(** Reading the node of a symbolic scalar. *)
Lemma toSymIntNodeImpl_symbolic s st :
  is_symbolic s = true ->
  toSymIntNodeImplUnowned s <> nullptr ->
  0 < count (refcount st) (toSymIntNodeImplUnowned s) ->
  toSymIntNodeImpl s st =
  Ok (toSymIntNodeImplUnowned s)
     (mkState (incr (toSymIntNodeImplUnowned s) (refcount st)) (backend st) (calls st)).
Proof.
  intros Hs Hp Hc. unfold toSymIntNodeImpl. rewrite Hs. cbn [negb].
  now rewrite (bind_Ok _ _ _ _ _ (retain_live _ _ Hp Hc)).
Qed.

Lemma toSymIntNodeImpl_concrete s st :
  is_symbolic s = false -> toSymIntNodeImpl s st = Throw CheckFailed st.
Proof. intros Hs. unfold toSymIntNodeImpl. now rewrite Hs. Qed.

Lemma SymInt_copy_symbolic s st :
  is_i64 (data_ s) -> is_symbolic s = true ->
  toSymIntNodeImplUnowned s <> nullptr ->
  0 < count (refcount st) (toSymIntNodeImplUnowned s) ->
  SymInt_copy s st =
  Ok s (mkState (incr (toSymIntNodeImplUnowned s) (refcount st)) (backend st) (calls st)).
Proof.
  intros Hi Hs Hp Hc. unfold SymInt_copy. rewrite Hs.
  rewrite (bind_Ok _ _ _ _ _ (toSymIntNodeImpl_symbolic _ _ Hs Hp Hc)).
  unfold ret. now rewrite toSymInt_decode.
Qed.

Lemma SymInt_copy_concrete s st :
  is_symbolic s = false -> SymInt_copy s st = Ok s st.
Proof. intros Hs. unfold SymInt_copy. now rewrite Hs. Qed.

Lemma SymInt_destroy_symbolic s st :
  is_symbolic s = true ->
  toSymIntNodeImplUnowned s <> nullptr ->
  0 < count (refcount st) (toSymIntNodeImplUnowned s) ->
  SymInt_destroy s st =
  Ok tt (mkState (decr (toSymIntNodeImplUnowned s) (refcount st)) (backend st) (calls st)).
Proof.
  intros Hs Hp Hc. unfold SymInt_destroy. rewrite Hs. now apply reset_live.
Qed.

Lemma SymInt_destroy_concrete s st :
  is_symbolic s = false -> SymInt_destroy s st = Ok tt st.
Proof. intros Hs. unfold SymInt_destroy. now rewrite Hs. Qed.

(** A scalar packed from a valid handle, and what it decodes to. *)
Lemma valid_ptr_u64 p : valid_ptr p -> is_u64 p.
Proof. unfold valid_ptr, representable, is_u64. lia. Qed.

Lemma decode_valid p : valid_ptr p -> toSymIntNodeImplUnowned (toSymInt p) = p.
Proof.
  intros Hv. apply decode_toSymInt; [now apply valid_ptr_u64|apply Hv].
Qed.

Lemma is_symbolic_valid p : valid_ptr p -> is_symbolic (toSymInt p) = true.
Proof. intros Hv. now apply is_symbolic_toSymInt, valid_ptr_u64. Qed.

End Execution.


Ltac side := first [assumption | count_solve].

Tactic Notation "step" open_constr(L) :=
  rewrite ?bind_assoc; erewrite bind_Ok; [ | apply L; side ]; cbv beta;
  cbn [refcount backend calls].

Ltac skip_ret := rewrite ?bind_assoc; rewrite bind_ret; cbv beta.

Ltac finish :=
  unfold ret; cbn [refcount backend calls];
  f_equal; f_equal; apply count_ext; intros ?q; count_solve.

Section Normalize.

Context {B : Type} `{SymIntNodeImpl B}.
Implicit Types (st : state B) (s a b : SymInt) (p q : Z).

Lemma common_of_left p q : p <> nullptr -> common_of p q = p.
Proof. unfold common_of. intros Hp. now destruct (Z.eqb_spec p nullptr). Qed.

Lemma common_of_right q : common_of nullptr q = q.
Proof. reflexivity. Qed.

Lemma wrap_missing_present common p s st :
  p <> nullptr -> wrap_missing common p s st = Ok p st.
Proof. unfold wrap_missing. intros Hp. now destruct (Z.eqb_spec p nullptr). Qed.

Lemma SymInt_destroy_packed p st :
  valid_ptr p -> 0 < count (refcount st) p ->
  SymInt_destroy (toSymInt p) st =
  Ok tt (mkState (decr p (refcount st)) (backend st) (calls st)).
Proof.
  intros Hv Hc.
  rewrite <- (decode_valid p Hv) at 2.
  apply SymInt_destroy_symbolic.
  - now apply is_symbolic_valid.
  - rewrite decode_valid by assumption. apply Hv.
  - now rewrite decode_valid.
Qed.

Lemma wrap_missing_absent common s st :
  common <> nullptr -> 0 < count (refcount st) common ->
  valid_ptr (fst (wrap common (data_ s) (backend st))) ->
  wrap_missing common nullptr s st =
  Ok (fst (wrap common (data_ s) (backend st)))
     (mkState (incr (fst (wrap common (data_ s) (backend st))) (refcount st))
              (snd (wrap common (data_ s) (backend st)))
              (calls st ++ [Node.Wrap common (data_ s)])).
Proof.
  intros Hc Hl Hv. unfold wrap_missing, as_int_unchecked.
  change (nullptr =? nullptr) with true. cbv iota.
  pose proof (proj1 Hv) as Hw.
  step call_wrap_live. rewrite adopt_valid by assumption.
  step retain_live.
  step SymInt_destroy_packed.
  finish.
Qed.

Lemma normalize_both a b st :
  owned st a -> owned st b -> is_symbolic a = true -> is_symbolic b = true ->
  normalize_symints a b st =
  Ok (toSymIntNodeImplUnowned a, toSymIntNodeImplUnowned b)
     (mkState (incr (toSymIntNodeImplUnowned a)
                 (incr (toSymIntNodeImplUnowned b) (refcount st)))
              (backend st) (calls st)).
Proof.
  intros [Hia Ha] [Hib Hb] Hsa Hsb.
  destruct (Ha Hsa) as [Hna Hca]. destruct (Hb Hsb) as [Hnb Hcb].
  unfold normalize_symints, by_value.
  step SymInt_copy_symbolic.
  step SymInt_copy_symbolic.
  rewrite Hsa, Hsb.
  step toSymIntNodeImpl_symbolic.
  step toSymIntNodeImpl_symbolic.
  step wrap_missing_present.
  step wrap_missing_present.
  step retain_live. step retain_live. step reset_live. step reset_live.
  skip_ret.
  step SymInt_destroy_symbolic.
  skip_ret.
  step SymInt_destroy_symbolic.
  finish.
Qed.

Lemma normalize_left a b st :
  owned st a -> is_i64 (data_ b) ->
  is_symbolic a = true -> is_symbolic b = false ->
  valid_ptr (fst (wrap (toSymIntNodeImplUnowned a) (data_ b) (backend st))) ->
  normalize_symints a b st =
  Ok (toSymIntNodeImplUnowned a,
      fst (wrap (toSymIntNodeImplUnowned a) (data_ b) (backend st)))
     (mkState (incr (toSymIntNodeImplUnowned a)
                 (incr (fst (wrap (toSymIntNodeImplUnowned a) (data_ b) (backend st)))
                    (refcount st)))
              (snd (wrap (toSymIntNodeImplUnowned a) (data_ b) (backend st)))
              (calls st ++ [Node.Wrap (toSymIntNodeImplUnowned a) (data_ b)])).
Proof.
  intros [Hia Ha] Hib Hsa Hsb Hv.
  destruct (Ha Hsa) as [Hna Hca]. pose proof (proj1 Hv) as Hw.
  unfold normalize_symints, by_value.
  step SymInt_copy_symbolic.
  step SymInt_copy_concrete.
  rewrite Hsa, Hsb.
  step toSymIntNodeImpl_symbolic.
  skip_ret.
  rewrite common_of_left by assumption.
  step wrap_missing_present.
  step wrap_missing_absent.
  step retain_live. step retain_live. step reset_live. step reset_live.
  skip_ret.
  step SymInt_destroy_concrete.
  skip_ret.
  step SymInt_destroy_symbolic.
  finish.
Qed.

Lemma normalize_right a b st :
  is_i64 (data_ a) -> owned st b ->
  is_symbolic a = false -> is_symbolic b = true ->
  valid_ptr (fst (wrap (toSymIntNodeImplUnowned b) (data_ a) (backend st))) ->
  normalize_symints a b st =
  Ok (fst (wrap (toSymIntNodeImplUnowned b) (data_ a) (backend st)),
      toSymIntNodeImplUnowned b)
     (mkState (incr (fst (wrap (toSymIntNodeImplUnowned b) (data_ a) (backend st)))
                 (incr (toSymIntNodeImplUnowned b) (refcount st)))
              (snd (wrap (toSymIntNodeImplUnowned b) (data_ a) (backend st)))
              (calls st ++ [Node.Wrap (toSymIntNodeImplUnowned b) (data_ a)])).
Proof.
  intros Hia [Hib Hb] Hsa Hsb Hv.
  destruct (Hb Hsb) as [Hnb Hcb]. pose proof (proj1 Hv) as Hw.
  unfold normalize_symints, by_value.
  step SymInt_copy_concrete.
  step SymInt_copy_symbolic.
  rewrite Hsa, Hsb.
  skip_ret.
  step toSymIntNodeImpl_symbolic.
  rewrite common_of_right.
  step wrap_missing_absent.
  step wrap_missing_present.
  step retain_live. step retain_live. step reset_live. step reset_live.
  skip_ret.
  step SymInt_destroy_symbolic.
  skip_ret.
  step SymInt_destroy_concrete.
  finish.
Qed.

End Normalize.


(** ** Running the operators *)

Section Operators.

Context {B : Type} `{SymIntNodeImpl B}.
Implicit Types (st : state B) (s a b : SymInt) (p q : Z).

Lemma owned_grow st st' s :
  (forall q, count (refcount st) q <= count (refcount st') q) ->
  owned st s -> owned st' s.
Proof.
  intros Hle [Hi Ho]. split; [assumption|].
  intros Hs. destruct (Ho Hs) as [Hn Hc]. split; [assumption|].
  specialize (Hle (toSymIntNodeImplUnowned s)). lia.
Qed.

Lemma owned_concrete st s : is_i64 (data_ s) -> is_symbolic s = false -> owned st s.
Proof. intros Hi Hs. split; [assumption|]. rewrite Hs. discriminate. Qed.

Lemma by_value_concrete {A : Type} s (body : SymInt -> M B A) st :
  is_symbolic s = false -> by_value s body st = body s st.
Proof.
  intros Hs. unfold by_value.
  step SymInt_copy_concrete.
  unfold bind. destruct (body s st) as [r st' | e st']; [|reflexivity].
  now rewrite (SymInt_destroy_concrete _ _ Hs).
Qed.

(** A symbolic argument passed by value: the body runs with one more
    unit on the node, which is released when it returns. *)
Lemma by_value_symbolic {A : Type} s (body : SymInt -> M B A) st r st' :
  owned st s -> is_symbolic s = true ->
  body s (mkState (incr (toSymIntNodeImplUnowned s) (refcount st))
                  (backend st) (calls st)) = Ok r st' ->
  0 < count (refcount st') (toSymIntNodeImplUnowned s) ->
  by_value s body st =
  Ok r (mkState (decr (toSymIntNodeImplUnowned s) (refcount st'))
                (backend st') (calls st')).
Proof.
  intros [Hi Ho] Hs Hb Hc. destruct (Ho Hs) as [Hn Hp].
  unfold by_value.
  step SymInt_copy_symbolic.
  rewrite (bind_Ok _ _ _ _ _ Hb).
  step SymInt_destroy_symbolic.
  reflexivity.
Qed.

(** The normalisation helper does what the spec says. *)
Lemma normalize_symints_spec a b st :
  lawful (B := B) -> owned st a -> owned st b ->
  is_symbolic a || is_symbolic b = true ->
  normalize_symints a b st =
  let '(na, nb, bk, log) := spec_normalize a b (backend st) in
  Ok (na, nb) (mkState (incr na (incr nb (refcount st))) bk (calls st ++ log)).
Proof.
  intros (Hw & _ & _) Ha Hb Hs. unfold spec_normalize.
  destruct (is_symbolic a) eqn:Hsa, (is_symbolic b) eqn:Hsb; try discriminate.
  - rewrite app_nil_r. now apply normalize_both.
  - specialize (Hw (toSymIntNodeImplUnowned a) (data_ b) (backend st)).
    rewrite (normalize_left a b st Ha (proj1 Hb) Hsa Hsb Hw).
    now destruct (wrap _ _ _).
  - specialize (Hw (toSymIntNodeImplUnowned b) (data_ a) (backend st)).
    rewrite (normalize_right a b st (proj1 Ha) Hb Hsa Hsb Hw).
    now destruct (wrap _ _ _).
Qed.

(** The handles that normalisation returns are handles on nodes. *)
Lemma spec_normalize_valid a b st :
  lawful (B := B) -> owned st a -> owned st b ->
  is_symbolic a || is_symbolic b = true ->
  let '(na, nb, _, _) := spec_normalize a b (backend st) in
  na <> nullptr /\ nb <> nullptr.
Proof.
  intros (Hw & _ & _) [_ Ha] [_ Hb] Hs. unfold spec_normalize.
  destruct (is_symbolic a) eqn:Hsa, (is_symbolic b) eqn:Hsb; try discriminate.
  - split; [apply Ha | apply Hb]; reflexivity.
  - specialize (Hw (toSymIntNodeImplUnowned a) (data_ b) (backend st)).
    destruct (wrap _ _ _). split; [now apply Ha | apply Hw].
  - specialize (Hw (toSymIntNodeImplUnowned b) (data_ a) (backend st)).
    destruct (wrap _ _ _). split; [apply Hw | now apply Hb].
Qed.

Lemma both_concrete_false a b :
  is_symbolic a || is_symbolic b = true -> both_concrete a b = false.
Proof. unfold both_concrete. destruct (is_symbolic a), (is_symbolic b); easy. Qed.

Lemma both_concrete_true a b :
  is_symbolic a = false -> is_symbolic b = false -> both_concrete a b = true.
Proof. unfold both_concrete. now intros -> ->. Qed.

(** Lines 59-60 and their like, started on a store [st1] that may
    hold more units than [st]: the result owns the new node once, and
    every other count is as it was. *)
Lemma dispatch_body lit m a b st :
  lawful (B := B) -> owned st a -> owned st b ->
  is_symbolic a || is_symbolic b = true ->
  (if both_concrete a b then lit (data_ a) (data_ b)
   else
     let* res := normalize_symints a b in
     let* r := call_binary m (fst res) (snd res) in
     let out := toSymInt r in
     let* _ := reset (snd res) in
     let* _ := reset (fst res) in
     ret out) st = spec_dispatch m a b st.
Proof.
  intros Hl Ha Hb Hs.
  rewrite both_concrete_false by assumption.
  pose proof (normalize_symints_spec a b st Hl Ha Hb Hs) as Hn.
  pose proof (spec_normalize_valid a b st Hl Ha Hb Hs) as Hv.
  unfold spec_dispatch.
  destruct (spec_normalize a b (backend st)) as [[[na nb] bk1] log].
  destruct Hv as [Hna Hnb].
  rewrite (bind_Ok _ _ _ _ _ Hn). cbn [fst snd].
  destruct Hl as (_ & Hbin & _).
  specialize (Hbin m na nb bk1). pose proof (proj1 Hbin) as Hr.
  step call_binary_live. rewrite adopt_valid by assumption.
  destruct (binary m na nb bk1) as [r bk2]. cbn [fst snd] in *.
  step reset_live. step reset_live.
  rewrite <- app_assoc. finish.
Qed.

Lemma arith_operator_concrete lit m a b st :
  is_symbolic a = false -> is_symbolic b = false ->
  arith_operator lit m a b st = lit (data_ a) (data_ b) st.
Proof.
  intros Ha Hb. unfold arith_operator.
  rewrite by_value_concrete by assumption.
  now rewrite both_concrete_true.
Qed.

Lemma arith_operator_symbolic lit m a b st :
  lawful (B := B) -> owned st a -> owned st b ->
  is_symbolic a || is_symbolic b = true ->
  arith_operator lit m a b st = spec_dispatch m a b st.
Proof.
  intros Hl Ha Hb Hs. unfold arith_operator.
  destruct (is_symbolic b) eqn:Hsb.
  - set (st1 := mkState (incr (toSymIntNodeImplUnowned b) (refcount st))
                        (backend st) (calls st)).
    assert (Hgrow : forall q, count (refcount st) q <= count (refcount st1) q)
      by (intros q; unfold st1; count_solve).
    pose proof (dispatch_body lit m a b st1 Hl
                  (owned_grow _ _ _ Hgrow Ha) (owned_grow _ _ _ Hgrow Hb)) as Hd.
    rewrite Hsb, orb_true_r in Hd. specialize (Hd eq_refl).
    unfold spec_dispatch in *. unfold st1 in Hd. cbn [backend calls refcount] in Hd.
    destruct (spec_normalize a b (backend st)) as [[[na nb] bk1] log].
    destruct (binary m na nb bk1) as [r bk2].
    rewrite (by_value_symbolic b _ st _ _ Hb Hsb Hd) by count_solve.
    finish.
  - rewrite by_value_concrete by assumption.
    apply dispatch_body; try assumption. now rewrite Hsb.
Qed.

End Operators.




Section Comparisons.

Context {B : Type} `{SymIntNodeImpl B}.
Implicit Types (st : state B) (s a b : SymInt) (p q : Z).

Lemma compare_body lit m a b st :
  lawful (B := B) -> owned st a -> owned st b ->
  is_symbolic a || is_symbolic b = true ->
  (if both_concrete a b then ret (lit (data_ a) (data_ b))
   else
     let* res := normalize_symints a b in
     let* r := call_binary m (fst res) (snd res) in
     let* v := call_bool r in
     let* _ := reset r in
     let* _ := reset (snd res) in
     let* _ := reset (fst res) in
     ret v) st = spec_compare m a b st.
Proof.
  intros Hl Ha Hb Hs.
  rewrite both_concrete_false by assumption.
  pose proof (normalize_symints_spec a b st Hl Ha Hb Hs) as Hn.
  pose proof (spec_normalize_valid a b st Hl Ha Hb Hs) as Hv.
  unfold spec_compare.
  destruct (spec_normalize a b (backend st)) as [[[na nb] bk1] log].
  destruct Hv as [Hna Hnb].
  rewrite (bind_Ok _ _ _ _ _ Hn). cbn [fst snd].
  destruct Hl as (_ & Hbin & _).
  specialize (Hbin m na nb bk1). pose proof (proj1 Hbin) as Hr.
  step call_binary_live. rewrite adopt_valid by assumption.
  destruct (binary m na nb bk1) as [r bk2]. cbn [fst snd] in *.
  step call_bool_live.
  destruct (bool_ r bk2) as [v bk3]. cbn [fst snd] in *.
  step reset_live. step reset_live. step reset_live.
  rewrite <- !app_assoc. cbn [app]. finish.
Qed.

Lemma cmp_operator_concrete lit m a b st :
  is_symbolic a = false -> is_symbolic b = false ->
  cmp_operator lit m a b st = Ok (lit (data_ a) (data_ b)) st.
Proof.
  intros Ha Hb. unfold cmp_operator.
  rewrite by_value_concrete by assumption.
  now rewrite both_concrete_true.
Qed.

Lemma cmp_operator_symbolic lit m a b st :
  lawful (B := B) -> owned st a -> owned st b ->
  is_symbolic a || is_symbolic b = true ->
  cmp_operator lit m a b st = spec_compare m a b st.
Proof.
  intros Hl Ha Hb Hs. unfold cmp_operator.
  destruct (is_symbolic b) eqn:Hsb.
  - set (st1 := mkState (incr (toSymIntNodeImplUnowned b) (refcount st))
                        (backend st) (calls st)).
    assert (Hgrow : forall q, count (refcount st) q <= count (refcount st1) q)
      by (intros q; unfold st1; count_solve).
    pose proof (compare_body lit m a b st1 Hl
                  (owned_grow _ _ _ Hgrow Ha) (owned_grow _ _ _ Hgrow Hb)) as Hd.
    rewrite Hsb, orb_true_r in Hd. specialize (Hd eq_refl).
    unfold spec_compare in *. unfold st1 in Hd. cbn [backend calls refcount] in Hd.
    destruct (spec_normalize a b (backend st)) as [[[na nb] bk1] log].
    destruct (binary m na nb bk1) as [r bk2].
    destruct (bool_ r bk2) as [v bk3].
    destruct Hb as [Hib Hob]. destruct (Hob Hsb) as [Hnb Hcb].
    rewrite (by_value_symbolic b _ st _ _ (conj Hib Hob) Hsb Hd) by count_solve.
    finish.
  - rewrite by_value_concrete by assumption.
    apply compare_body; try assumption. now rewrite Hsb.
Qed.

(** [!=] is [==] with the answer negated, on either path. *)
Lemma operator_ne_concrete a b st :
  is_symbolic a = false -> is_symbolic b = false ->
  operator_ne a b st = Ok (negb (data_ a =? data_ b)) st.
Proof.
  intros Ha Hb. unfold operator_ne.
  rewrite by_value_concrete by assumption.
  unfold operator_eq.
  now rewrite (bind_Ok _ _ _ _ _ (cmp_operator_concrete _ _ _ _ _ Ha Hb)).
Qed.

Lemma operator_ne_symbolic a b st :
  lawful (B := B) -> owned st a -> owned st b ->
  is_symbolic a || is_symbolic b = true ->
  operator_ne a b st =
  match spec_compare Node.eq a b st with
  | Ok v st' => Ok (negb v) st'
  | Throw e st' => Throw e st'
  end.
Proof.
  intros Hl Ha Hb Hs. unfold operator_ne, operator_eq.
  destruct (is_symbolic b) eqn:Hsb.
  - set (st1 := mkState (incr (toSymIntNodeImplUnowned b) (refcount st))
                        (backend st) (calls st)).
    assert (Hgrow : forall q, count (refcount st) q <= count (refcount st1) q)
      by (intros q; unfold st1; count_solve).
    assert (Hs1 : is_symbolic a || is_symbolic b = true)
      by (rewrite Hsb; apply orb_true_r).
    pose proof (cmp_operator_symbolic Z.eqb Node.eq a b st1 Hl
                  (owned_grow _ _ _ Hgrow Ha) (owned_grow _ _ _ Hgrow Hb) Hs1) as Hd.
    unfold spec_compare in *. unfold st1 in Hd. cbn [backend calls refcount] in Hd.
    destruct (spec_normalize a b (backend st)) as [[[na nb] bk1] log].
    destruct (binary Node.eq na nb bk1) as [r bk2].
    destruct (bool_ r bk2) as [v bk3].
    destruct Hb as [Hib Hob]. destruct (Hob Hsb) as [Hnb Hcb].
    assert (Hbody : (let* v := cmp_operator Z.eqb Node.eq a b in ret (negb v))
                      (mkState (incr (toSymIntNodeImplUnowned b) (refcount st))
                               (backend st) (calls st)) = Ok (negb v) _)
      by (rewrite (bind_Ok _ _ _ _ _ Hd); reflexivity).
    rewrite (by_value_symbolic b _ st _ _ (conj Hib Hob) Hsb Hbody) by count_solve.
    finish.
  - rewrite by_value_concrete by assumption.
    assert (Hs1 : is_symbolic a || is_symbolic b = true) by now rewrite Hsb.
    pose proof (cmp_operator_symbolic Z.eqb Node.eq a b st Hl Ha Hb Hs1) as Hd.
    unfold spec_compare in *.
    destruct (spec_normalize a b (backend st)) as [[[na nb] bk1] log].
    destruct (binary Node.eq na nb bk1) as [r bk2].
    destruct (bool_ r bk2) as [v bk3].
    now rewrite (bind_Ok _ _ _ _ _ Hd).
Qed.

Lemma operator_neg_concrete s st :
  is_symbolic s = false ->
  operator_neg s st = SymInt_ctor (to_i64 (- data_ s)) st.
Proof.
  intros Hs. unfold operator_neg.
  rewrite by_value_concrete by assumption. now rewrite Hs.
Qed.

Lemma negate_body s st :
  lawful (B := B) -> is_symbolic s = true ->
  toSymIntNodeImplUnowned s <> nullptr ->
  0 < count (refcount st) (toSymIntNodeImplUnowned s) ->
  (let* n := toSymIntNodeImpl s in
   let* r := call_neg n in
   let out := toSymInt r in
   let* _ := reset n in
   ret out) st = spec_negate s st.
Proof.
  intros (_ & _ & Hl) Hs Hn Hc. unfold spec_negate.
  specialize (Hl (toSymIntNodeImplUnowned s) (backend st)).
  pose proof (proj1 Hl) as Hr.
  step toSymIntNodeImpl_symbolic.
  step call_neg_live. rewrite adopt_valid by assumption.
  destruct (neg _ _) as [r bk]. cbn [fst snd] in *.
  step reset_live.
  finish.
Qed.

Lemma operator_neg_symbolic s st :
  lawful (B := B) -> owned st s -> is_symbolic s = true ->
  operator_neg s st = spec_negate s st.
Proof.
  intros Hl [Hi Ho] Hs. destruct (Ho Hs) as [Hn Hc].
  unfold operator_neg.
  set (st1 := mkState (incr (toSymIntNodeImplUnowned s) (refcount st))
                      (backend st) (calls st)).
  assert (Hc1 : 0 < count (refcount st1) (toSymIntNodeImplUnowned s))
    by (unfold st1; count_solve).
  pose proof (negate_body s st1 Hl Hs Hn Hc1) as Hd.
  unfold spec_negate in *. unfold st1 in Hd. cbn [backend calls refcount] in Hd.
  destruct (neg _ _) as [r bk].
  erewrite (by_value_symbolic s _ st _ _ (conj Hi Ho) Hs).
  2: { cbv beta. rewrite Hs. exact Hd. }
  2: count_solve.
  finish.
Qed.

End Comparisons.

(** ** The claims *)


(** ** The instrumented backend is lawful *)

Lemma Numbering_address_valid (k : nat) : valid_ptr (Numbering.address k).
Proof.
  unfold valid_ptr, representable, Numbering.address, nullptr.
  pose proof (Z.mod_pos_bound (Z.of_nat k) (2 ^ 32)). lia.
Qed.

Lemma Numbering_lawful : lawful (B := Numbering.t).
Proof.
  repeat split; intros; cbn; try apply Numbering_address_valid.
Qed.

(** ** Concrete operands *)

Section Concrete.

Context {B : Type} `{SymIntNodeImpl B}.
Implicit Types (st : state B) (s a b : SymInt).

Lemma SymInt_ctor_spec d st :
  is_i64 d ->
  SymInt_ctor d st = if d <? - 2 ^ 62 then Throw CheckFailed st else Ok (mkSymInt d) st.
Proof.
  intros Hd. unfold SymInt_ctor.
  destruct (Z.ltb_spec d (- 2 ^ 62)) as [Hlt | Hge].
  - now rewrite (proj2 (is_symbolic_spec d Hd) Hlt).
  - now rewrite (proj2 (is_symbolic_false d Hd) Hge).
Qed.

Lemma concrete_range s :
  is_i64 (data_ s) -> is_symbolic s = false -> - 2 ^ 62 <= data_ s < 2 ^ 63.
Proof.
  intros Hi Hs. destruct s as [d]. cbn [data_] in *.
  apply is_symbolic_false in Hs; [|assumption]. unfold is_i64 in Hi. lia.
Qed.

Lemma apply_arith_unfold o a b st :
  apply_arith o a b st =
  arith_operator
    (match o with
     | op_add => fun x y => SymInt_ctor (to_i64 (x + y))
     | op_sub => fun x y => SymInt_ctor (to_i64 (x - y))
     | op_mul => fun x y => SymInt_ctor (to_i64 (x * y))
     | op_div => fun x y => if y =? 0 then throw DivisionByZero
                            else SymInt_ctor (to_i64 (Z.quot x y))
     | op_mod => fun x y => if y =? 0 then throw DivisionByZero
                            else SymInt_ctor (to_i64 (Z.rem x y))
     | op_min => fun x y => SymInt_ctor (if y <? x then y else x)
     | op_max => fun x y => SymInt_ctor (if x <? y then y else x)
     end) (method_of_arith o) a b st.
Proof. now destruct o. Qed.

(** On concrete operands an arithmetic operator is its literal
    computation, and the store is not touched before the constructor. *)
Lemma apply_arith_concrete o a b st :
  is_symbolic a = false -> is_symbolic b = false ->
  apply_arith o a b st =
  match o with
  | op_add => SymInt_ctor (to_i64 (data_ a + data_ b)) st
  | op_sub => SymInt_ctor (to_i64 (data_ a - data_ b)) st
  | op_mul => SymInt_ctor (to_i64 (data_ a * data_ b)) st
  | op_div => if data_ b =? 0 then Throw DivisionByZero st
              else SymInt_ctor (to_i64 (Z.quot (data_ a) (data_ b))) st
  | op_mod => if data_ b =? 0 then Throw DivisionByZero st
              else SymInt_ctor (to_i64 (Z.rem (data_ a) (data_ b))) st
  | op_min => SymInt_ctor (Z.min (data_ a) (data_ b)) st
  | op_max => SymInt_ctor (Z.max (data_ a) (data_ b)) st
  end.
Proof.
  intros Ha Hb. rewrite apply_arith_unfold, arith_operator_concrete by assumption.
  destruct o; try reflexivity.
  - now destruct (data_ b =? 0).
  - now destruct (data_ b =? 0).
  - f_equal. destruct (Z.ltb_spec (data_ b) (data_ a)); lia.
  - f_equal. destruct (Z.ltb_spec (data_ a) (data_ b)); lia.
Qed.

Lemma apply_cmp_concrete o a b st :
  is_symbolic a = false -> is_symbolic b = false ->
  apply_cmp o a b st = Ok (plain_cmp o (data_ a) (data_ b)) st.
Proof.
  intros Ha Hb.
  destruct o; cbn [apply_cmp plain_cmp];
    unfold operator_eq, operator_lt, operator_le, operator_gt, operator_ge;
    rewrite ?operator_ne_concrete, ?cmp_operator_concrete by assumption;
    try reflexivity.
  - now rewrite Z.gtb_ltb.
  - now rewrite Z.geb_leb.
Qed.

End Concrete.

(** C1 (the code at the failing input).  On the concrete scalars -7 and
    2, [operator/] returns -3, the quotient truncated toward zero, and
    leaves the store as it was; floor division gives -4. *)
Theorem operator_div_truncates {B : Type} `{SymIntNodeImpl B} (st : state B) :
  operator_div (mkSymInt (-7)) (mkSymInt 2) st = Ok (mkSymInt (-3)) st /\
  (-7) / 2 = -4.
Proof.
  split; [|reflexivity].
  change (operator_div (mkSymInt (-7)) (mkSymInt 2) st)
    with (apply_arith op_div (mkSymInt (-7)) (mkSymInt 2) st).
  rewrite apply_arith_concrete by reflexivity. reflexivity.
Qed.

(** C7.  A comparison of two concrete scalars returns the comparison of
    the two literals and leaves the whole store as it was: no count has
    moved, the state of the backend is the same, and the log of virtual
    calls has no new entry (no [wrap], no node-level comparison). *)
Theorem compare_concrete_no_node {B : Type} `{SymIntNodeImpl B}
    (o : cmp_op) (a b : SymInt) (st : state B) :
  is_symbolic a = false -> is_symbolic b = false ->
  apply_cmp o a b st = Ok (plain_cmp o (data_ a) (data_ b)) st.
Proof. apply apply_cmp_concrete. Qed.

(** C7 at the literals 3 and 5, compared with [<]. *)
Lemma compare_concrete_no_node_witness :
  apply_cmp op_lt (mkSymInt 3) (mkSymInt 5) (Numbering.store 16 true)
  = Ok true (Numbering.store 16 true).
Proof.
  apply (compare_concrete_no_node op_lt (mkSymInt 3) (mkSymInt 5)
           (Numbering.store 16 true)); vm_compute; reflexivity.
Defined.


Section ScalarClaims.

Context {B : Type} `{SymIntNodeImpl B}.
Implicit Types (st : state B) (s a b : SymInt).

(** C5 (amended).  On two concrete scalars the operators compute on the
    stored literals and touch neither the store nor the backend.  [+],
    [-], [*] and unary minus compute the 64-bit two's complement result
    [r] (the exact result when that fits 64 bits): they return the scalar
    [r] when [r] is at least [-2^62], and the checked constructor throws
    when [r] lies in the reserved range below.  [min], [max] and the six
    comparisons always return the plain result. *)
Theorem concrete_operators_plain a b st :
  is_i64 (data_ a) -> is_i64 (data_ b) ->
  is_symbolic a = false -> is_symbolic b = false ->
  (forall o, o = op_add \/ o = op_sub \/ o = op_mul ->
     apply_arith o a b st =
       (if to_i64 (plain_arith o (data_ a) (data_ b)) <? - 2 ^ 62
        then Throw CheckFailed st
        else Ok (mkSymInt (to_i64 (plain_arith o (data_ a) (data_ b)))) st) /\
     (is_i64 (plain_arith o (data_ a) (data_ b)) ->
      to_i64 (plain_arith o (data_ a) (data_ b)) = plain_arith o (data_ a) (data_ b))) /\
  operator_neg a st =
    (if to_i64 (- data_ a) <? - 2 ^ 62
     then Throw CheckFailed st
     else Ok (mkSymInt (to_i64 (- data_ a))) st) /\
  to_i64 (- data_ a) = - data_ a /\
  (forall o, o = op_min \/ o = op_max ->
     apply_arith o a b st = Ok (mkSymInt (plain_arith o (data_ a) (data_ b))) st) /\
  (forall o, apply_cmp o a b st = Ok (plain_cmp o (data_ a) (data_ b)) st).
Proof.
  intros Hia Hib Ha Hb.
  pose proof (concrete_range a Hia Ha) as Hra.
  pose proof (concrete_range b Hib Hb) as Hrb.
  split; [|split; [|split; [|split]]].
  - intros o Ho. split; [|apply to_i64_small].
    rewrite apply_arith_concrete by assumption.
    destruct Ho as [-> | [-> | ->]]; cbn [plain_arith];
      apply SymInt_ctor_spec, to_i64_range.
  - rewrite operator_neg_concrete by assumption.
    apply SymInt_ctor_spec, to_i64_range.
  - apply to_i64_small. unfold is_i64. lia.
  - intros o Ho. rewrite apply_arith_concrete by assumption.
    destruct Ho as [-> | ->]; cbn [plain_arith]; rewrite SymInt_ctor_spec.
    + destruct (Z.ltb_spec (Z.min (data_ a) (data_ b)) (- 2 ^ 62)); [lia|reflexivity].
    + unfold is_i64 in *. lia.
    + destruct (Z.ltb_spec (Z.max (data_ a) (data_ b)) (- 2 ^ 62)); [lia|reflexivity].
    + unfold is_i64 in *. lia.
  - intros o. now apply apply_cmp_concrete.
Qed.

(** C8.  [toSymIntNodeImpl] on a scalar that is not symbolic throws at
    the TORCH_CHECK, before anything is read as an address and with the
    store untouched.  On a symbolic scalar the check passes and the call
    is [reclaim_copy] of the decoded pointer: when the scalar owns its
    node, it returns a handle on that node, and the count of the node
    has grown by the unit of the new handle. *)
Theorem toSymIntNodeImpl_precondition s st :
  (is_symbolic s = false -> toSymIntNodeImpl s st = Throw CheckFailed st) /\
  (is_symbolic s = true ->
     toSymIntNodeImpl s st =
       (let* _ := retain (toSymIntNodeImplUnowned s) in
        ret (toSymIntNodeImplUnowned s)) st /\
     (toSymIntNodeImplUnowned s <> nullptr ->
      0 < count (refcount st) (toSymIntNodeImplUnowned s) ->
      toSymIntNodeImpl s st =
        Ok (toSymIntNodeImplUnowned s)
           (mkState (incr (toSymIntNodeImplUnowned s) (refcount st))
                    (backend st) (calls st)) /\
      count (incr (toSymIntNodeImplUnowned s) (refcount st)) (toSymIntNodeImplUnowned s)
        = count (refcount st) (toSymIntNodeImplUnowned s) + 1)).
Proof.
  split.
  - apply toSymIntNodeImpl_concrete.
  - intros Hs. split.
    + unfold toSymIntNodeImpl. now rewrite Hs.
    + intros Hn Hc. split.
      * now apply toSymIntNodeImpl_symbolic.
      * count_solve.
Qed.

(** C4 (amended).  For a handle on a node whose address is not null and
    is representable in the payload (the same after its low 62 bits are
    sign-extended), packing it with [toSymInt] and reading it back with
    [toSymIntNodeImpl] returns a handle on the same address.  The packed
    scalar is symbolic, decodes to that address, and still owns its unit
    after the read: the read added one unit for the new handle, and
    releasing that handle gives back the store as it was. *)
Theorem toSymInt_roundtrip (n : Z) st :
  valid_ptr n -> 0 < count (refcount st) n ->
  toSymIntNodeImpl (toSymInt n) st =
    Ok n (mkState (incr n (refcount st)) (backend st) (calls st)) /\
  is_symbolic (toSymInt n) = true /\
  toSymIntNodeImplUnowned (toSymInt n) = n /\
  owned (mkState (incr n (refcount st)) (backend st) (calls st)) (toSymInt n) /\
  (let* h := toSymIntNodeImpl (toSymInt n) in reset h) st
    = Ok tt (mkState (refcount st) (backend st) (calls st)) /\
  owned st (toSymInt n).
Proof.
  intros Hv Hc. pose proof (proj1 Hv) as Hn.
  pose proof (decode_valid n Hv) as Hd.
  pose proof (is_symbolic_valid n Hv) as Hs.
  assert (Hread : toSymIntNodeImpl (toSymInt n) st =
                  Ok n (mkState (incr n (refcount st)) (backend st) (calls st))).
  { rewrite <- Hd at 2 3. apply toSymIntNodeImpl_symbolic; rewrite ?Hd; assumption. }
  assert (Ho : forall m, 0 < count m n ->
                owned (mkState m (backend st) (calls st)) (toSymInt n)).
  { intros m Hm. split; [apply toSymInt_i64|]. intros _. now rewrite Hd. }
  split; [exact Hread|]. split; [exact Hs|]. split; [exact Hd|].
  split; [apply Ho; count_solve|]. split.
  - rewrite (bind_Ok _ _ _ _ _ Hread).
    rewrite reset_live by (first [assumption | count_solve]).
    cbn [refcount backend calls]. now rewrite decr_incr.
  - destruct st as [m bk cl]. now apply Ho.
Qed.

End ScalarClaims.

(** C5 (counterexample).  [-2^62] and [-1] are concrete scalars and
    their sum [-2^62 - 1] fits 64 bits, but [operator+] does not return
    it: the sum lies in the reserved range and the constructor throws. *)
Lemma operator_add_reserved_result :
  is_symbolic (mkSymInt (- 2 ^ 62)) = false /\
  is_symbolic (mkSymInt (-1)) = false /\
  to_i64 (- 2 ^ 62 + -1) = - 2 ^ 62 - 1 /\
  operator_add (mkSymInt (- 2 ^ 62)) (mkSymInt (-1)) (Numbering.store 16 true)
    = Throw CheckFailed (Numbering.store 16 true).
Proof. repeat split; vm_compute; reflexivity. Qed.

(** C5 at the literals 4 and 6. *)
Lemma concrete_operators_plain_witness :
  operator_add (mkSymInt 4) (mkSymInt 6) (Numbering.store 16 true)
    = Ok (mkSymInt 10) (Numbering.store 16 true) /\
  operator_neg (mkSymInt 4) (Numbering.store 16 true)
    = Ok (mkSymInt (-4)) (Numbering.store 16 true) /\
  SymInt_min (mkSymInt 4) (mkSymInt 6) (Numbering.store 16 true)
    = Ok (mkSymInt 4) (Numbering.store 16 true) /\
  operator_le (mkSymInt 4) (mkSymInt 6) (Numbering.store 16 true)
    = Ok true (Numbering.store 16 true).
Proof.
  destruct (concrete_operators_plain (mkSymInt 4) (mkSymInt 6) (Numbering.store 16 true))
    as (Harith & Hneg & _ & Hmin & Hcmp);
    [unfold is_i64; cbn; lia | unfold is_i64; cbn; lia
    | vm_compute; reflexivity | vm_compute; reflexivity |].
  exact (conj (proj1 (Harith op_add (or_introl eq_refl)))
           (conj Hneg (conj (Hmin op_min (or_introl eq_refl)) (Hcmp op_le)))).
Defined.

(** C4 (counterexample).  A node at address [2^62], owned once: the word
    packed from its handle is the word packed from the null handle, and
    reading it back returns the null handle, not the node. *)
Lemma toSymInt_roundtrip_fails :
  is_u64 (2 ^ 62) /\
  count (refcount (Numbering.store (2 ^ 62) true)) (2 ^ 62) = 1 /\
  toSymInt (2 ^ 62) = toSymInt nullptr /\
  toSymIntNodeImpl (toSymInt (2 ^ 62)) (Numbering.store (2 ^ 62) true)
    = Ok nullptr (Numbering.store (2 ^ 62) true).
Proof.
  repeat split; try (vm_compute; reflexivity); vm_compute; congruence.
Qed.

(** C4 at a node at address 1600, owned once. *)
Lemma toSymInt_roundtrip_witness :
  toSymIntNodeImpl (toSymInt 1600) (Numbering.store 1600 true)
    = Ok 1600 (mkState {[ 1600 := 2%positive ]} (Numbering.mk 0 true) []) /\
  is_symbolic (toSymInt 1600) = true.
Proof.
  destruct (toSymInt_roundtrip 1600 (Numbering.store 1600 true))
    as (Hread & Hsym & _);
    [unfold valid_ptr, representable, nullptr; lia | vm_compute; reflexivity |].
  split; [exact Hread | exact Hsym].
Defined.

(** C8 at the literal 5 and at a scalar on the node at 1600. *)
Lemma toSymIntNodeImpl_precondition_witness :
  toSymIntNodeImpl (mkSymInt 5) (Numbering.store 1600 true)
    = Throw CheckFailed (Numbering.store 1600 true) /\
  toSymIntNodeImpl (toSymInt 1600) (Numbering.store 1600 true)
    = Ok 1600 (mkState {[ 1600 := 2%positive ]} (Numbering.mk 0 true) []).
Proof.
  destruct (toSymIntNodeImpl_precondition (mkSymInt 5) (Numbering.store 1600 true))
    as [Hc _].
  destruct (toSymIntNodeImpl_precondition (toSymInt 1600) (Numbering.store 1600 true))
    as [_ Hs].
  split.
  - apply Hc. vm_compute; reflexivity.
  - refine (proj1 (proj2 (Hs _) _ _)); vm_compute; first [reflexivity | congruence].
Defined.


Section Symbolic.

Context {B : Type} `{SymIntNodeImpl B}.
Implicit Types (st : state B) (s a b c : SymInt).

Lemma apply_arith_symbolic o a b st :
  lawful (B := B) -> owned st a -> owned st b ->
  is_symbolic a || is_symbolic b = true ->
  apply_arith o a b st = spec_dispatch (method_of_arith o) a b st.
Proof.
  intros Hl Ha Hb Hs. rewrite apply_arith_unfold.
  now apply arith_operator_symbolic.
Qed.

Lemma apply_cmp_symbolic o a b st :
  lawful (B := B) -> owned st a -> owned st b ->
  is_symbolic a || is_symbolic b = true ->
  apply_cmp o a b st =
  match o with
  | op_ne => outcome_map negb (spec_compare Node.eq a b st)
  | _ => spec_compare (method_of_cmp o) a b st
  end.
Proof.
  intros Hl Ha Hb Hs.
  destruct o; cbn [apply_cmp method_of_cmp];
    try (now apply cmp_operator_symbolic).
  now apply operator_ne_symbolic.
Qed.

(** C10.  What [normalize_symints] does is fixed by which operands are
    symbolic.  When both are, the reference node of line 15 is the left
    operand's, the two handles returned are the operands' own nodes, and
    [wrap] is not called: the log and the backend are as before.  When
    exactly one is, [wrap] is called once, on the node of the symbolic
    operand and with the literal of the concrete one, and the new node
    takes the place of the concrete operand. *)
Theorem normalize_symints_one_sided a b st :
  lawful (B := B) -> owned st a -> owned st b ->
  (is_symbolic a = true -> is_symbolic b = true ->
     common_of (toSymIntNodeImplUnowned a) (toSymIntNodeImplUnowned b)
       = toSymIntNodeImplUnowned a /\
     normalize_symints a b st =
       Ok (toSymIntNodeImplUnowned a, toSymIntNodeImplUnowned b)
          (mkState (incr (toSymIntNodeImplUnowned a)
                      (incr (toSymIntNodeImplUnowned b) (refcount st)))
                   (backend st) (calls st))) /\
  (is_symbolic a = true -> is_symbolic b = false ->
     normalize_symints a b st =
       Ok (toSymIntNodeImplUnowned a,
           fst (wrap (toSymIntNodeImplUnowned a) (data_ b) (backend st)))
          (mkState (incr (toSymIntNodeImplUnowned a)
                      (incr (fst (wrap (toSymIntNodeImplUnowned a) (data_ b) (backend st)))
                         (refcount st)))
                   (snd (wrap (toSymIntNodeImplUnowned a) (data_ b) (backend st)))
                   (calls st ++ [Node.Wrap (toSymIntNodeImplUnowned a) (data_ b)]))) /\
  (is_symbolic a = false -> is_symbolic b = true ->
     normalize_symints a b st =
       Ok (fst (wrap (toSymIntNodeImplUnowned b) (data_ a) (backend st)),
           toSymIntNodeImplUnowned b)
          (mkState (incr (fst (wrap (toSymIntNodeImplUnowned b) (data_ a) (backend st)))
                      (incr (toSymIntNodeImplUnowned b) (refcount st)))
                   (snd (wrap (toSymIntNodeImplUnowned b) (data_ a) (backend st)))
                   (calls st ++ [Node.Wrap (toSymIntNodeImplUnowned b) (data_ a)]))).
Proof.
  intros Hl Ha Hb.
  split; [|split].
  - intros Hsa Hsb. split.
    + apply common_of_left. now apply (proj2 Ha).
    + now apply normalize_both.
  - intros Hsa Hsb. apply normalize_left; try assumption; [apply Hb | apply Hl].
  - intros Hsa Hsb. apply normalize_right; try assumption; [apply Ha | apply Hl].
Qed.

(** C6.  For each arithmetic operator and for [min] and [max], with a
    concrete [c] and a symbolic [s] that owns its node [n]: [c (+) s]
    and [s (+) c] both call [n->wrap] on the literal of [c], then the
    operator's node method on the two handles in the order of the
    operands, and return the symbolic scalar packed from the node that
    method returned, which decodes to that node and owns it once. *)
Theorem mixed_operand_dispatch o c s st :
  lawful (B := B) -> is_i64 (data_ c) -> is_symbolic c = false ->
  owned st s -> is_symbolic s = true ->
  apply_arith o c s st =
    (let n := toSymIntNodeImplUnowned s in
     let '(w, bk1) := wrap n (data_ c) (backend st) in
     let '(r, bk2) := binary (method_of_arith o) w n bk1 in
     Ok (toSymInt r)
        (mkState (incr r (refcount st)) bk2
           (calls st ++ [Node.Wrap n (data_ c); Node.Binary (method_of_arith o) w n]))) /\
  apply_arith o s c st =
    (let n := toSymIntNodeImplUnowned s in
     let '(w, bk1) := wrap n (data_ c) (backend st) in
     let '(r, bk2) := binary (method_of_arith o) n w bk1 in
     Ok (toSymInt r)
        (mkState (incr r (refcount st)) bk2
           (calls st ++ [Node.Wrap n (data_ c); Node.Binary (method_of_arith o) n w]))) /\
  (forall x y bk,
     is_symbolic (toSymInt (fst (binary (method_of_arith o) x y bk))) = true /\
     toSymIntNodeImplUnowned (toSymInt (fst (binary (method_of_arith o) x y bk)))
       = fst (binary (method_of_arith o) x y bk)).
Proof.
  intros Hl Hic Hc Hs Hsym.
  pose proof (owned_concrete st c Hic Hc) as Hoc.
  split; [|split].
  - rewrite apply_arith_symbolic by (rewrite ?Hsym, ?orb_true_r; trivial).
    unfold spec_dispatch, spec_normalize. rewrite Hc, Hsym. cbv zeta.
    destruct (wrap _ _ _) as [w bk1]. now destruct (binary _ _ _ _).
  - rewrite apply_arith_symbolic by (rewrite ?Hsym; trivial).
    unfold spec_dispatch, spec_normalize. rewrite Hc, Hsym. cbv zeta.
    destruct (wrap _ _ _) as [w bk1]. now destruct (binary _ _ _ _).
  - intros x y bk. destruct Hl as (_ & Hbin & _).
    specialize (Hbin (method_of_arith o) x y bk).
    split; [now apply is_symbolic_valid | now apply decode_valid].
Qed.

(** C3 (amended).  When one operand at least is symbolic, [a != b] is
    the negation of [a == b]: both operands are normalised, the node
    method [eq] is called on the two handles, its node is coerced with
    [bool_], and the answer is negated.  [ne] is not called. *)
Theorem operator_ne_negates_eq a b st :
  lawful (B := B) -> owned st a -> owned st b ->
  is_symbolic a || is_symbolic b = true ->
  operator_ne a b st = outcome_map negb (spec_compare Node.eq a b st) /\
  operator_ne a b st = outcome_map negb (operator_eq a b st) /\
  existsb (Node.is_binary Node.ne) (calls_of (operator_ne a b st))
    = existsb (Node.is_binary Node.ne) (calls st).
Proof.
  intros Hl Ha Hb Hs.
  pose proof (operator_ne_symbolic a b st Hl Ha Hb Hs) as Hne.
  pose proof (cmp_operator_symbolic Z.eqb Node.eq a b st Hl Ha Hb Hs) as Heq.
  fold (operator_eq a b st) in Heq.
  split; [exact Hne|]. split; [now rewrite Heq|].
  rewrite Hne. unfold spec_compare, spec_normalize.
  destruct (is_symbolic a), (is_symbolic b); try discriminate;
    [ | destruct (wrap _ _ _) | destruct (wrap _ _ _) ];
    destruct (binary _ _ _ _); destruct (bool_ _ _);
    cbn [outcome_map calls_of calls];
    rewrite !existsb_app; cbn; now rewrite ?orb_false_r.
Qed.

End Symbolic.

(** The scalar packed from the node of [Numbering.store] owns it. *)
Lemma Numbering_store_owned :
  owned (Numbering.store 1600 true) (toSymInt 1600).
Proof.
  split; [apply toSymInt_i64|]. intros _.
  vm_compute. split; [congruence | reflexivity].
Qed.

(** C3 (counterexample).  With [a] symbolic on the node at 1600 and [b]
    the literal 3, [a != b] logs a call of [eq] and none of [ne], and it
    is not the dispatch to [ne] that the claim describes. *)
Lemma operator_ne_does_not_call_ne :
  is_symbolic (toSymInt 1600) = true /\
  calls_of (operator_ne (toSymInt 1600) (mkSymInt 3) (Numbering.store 1600 true))
    = [Node.Wrap 1600 3; Node.Binary Node.eq 1600 16; Node.Bool_ 32] /\
  calls_of (spec_compare Node.ne (toSymInt 1600) (mkSymInt 3) (Numbering.store 1600 true))
    = [Node.Wrap 1600 3; Node.Binary Node.ne 1600 16; Node.Bool_ 32] /\
  operator_ne (toSymInt 1600) (mkSymInt 3) (Numbering.store 1600 true)
    <> spec_compare Node.ne (toSymInt 1600) (mkSymInt 3) (Numbering.store 1600 true).
Proof.
  split; [vm_compute; reflexivity|].
  split; [vm_compute; reflexivity|].
  split; [vm_compute; reflexivity|].
  intros Heq. apply (f_equal calls_of) in Heq. vm_compute in Heq. congruence.
Qed.

(** C3 at a scalar on the node at 1600 and the literal 3. *)
Lemma operator_ne_negates_eq_witness :
  operator_ne (toSymInt 1600) (mkSymInt 3) (Numbering.store 1600 true)
    = outcome_map negb
        (operator_eq (toSymInt 1600) (mkSymInt 3) (Numbering.store 1600 true)).
Proof.
  refine (proj1 (proj2 (operator_ne_negates_eq (toSymInt 1600) (mkSymInt 3)
                          (Numbering.store 1600 true)
                          Numbering_lawful Numbering_store_owned _ _))).
  - apply owned_concrete; [unfold is_i64; cbn; lia | vm_compute; reflexivity].
  - vm_compute; reflexivity.
Defined.

(** C10 at a scalar on the node at 1600 and the literal 5. *)
Lemma normalize_symints_one_sided_witness :
  normalize_symints (toSymInt 1600) (mkSymInt 5) (Numbering.store 1600 true)
    = Ok (1600, 16)
         (mkState {[ 1600 := 2%positive; 16 := 1%positive ]} (Numbering.mk 1 true)
                  [Node.Wrap 1600 5]).
Proof.
  assert (Hc : owned (Numbering.store 1600 true) (mkSymInt 5))
    by (apply owned_concrete; [unfold is_i64; cbn; lia | vm_compute; reflexivity]).
  pose proof (proj1 (proj2 (normalize_symints_one_sided (toSymInt 1600) (mkSymInt 5)
                              (Numbering.store 1600 true)
                              Numbering_lawful Numbering_store_owned Hc))) as Hw.
  etransitivity; [apply Hw; vm_compute; reflexivity|].
  vm_compute. reflexivity.
Defined.

(** C6 at the literal 3 plus a scalar on the node at 1600. *)
Lemma mixed_operand_dispatch_witness :
  operator_add (mkSymInt 3) (toSymInt 1600) (Numbering.store 1600 true)
    = Ok (toSymInt 32)
         (mkState {[ 1600 := 1%positive; 32 := 1%positive ]} (Numbering.mk 2 true)
                  [Node.Wrap 1600 3; Node.Binary Node.add 16 1600]).
Proof.
  assert (Hi : is_i64 (data_ (mkSymInt 3))) by (unfold is_i64; cbn; lia).
  pose proof (proj1 (mixed_operand_dispatch op_add (mkSymInt 3) (toSymInt 1600)
                       (Numbering.store 1600 true)
                       Numbering_lawful Hi eq_refl Numbering_store_owned eq_refl)) as Hw.
  etransitivity; [exact Hw|].
  vm_compute. reflexivity.
Defined.


Section DoubleNegation.

Context {B : Type} `{SymIntNodeImpl B}.
Implicit Types (st : state B) (s a b x : SymInt).

Lemma owned_packed p st :
  valid_ptr p -> 0 < count (refcount st) p -> owned st (toSymInt p).
Proof.
  intros Hv Hc. split; [apply toSymInt_i64|].
  intros _. rewrite decode_valid by assumption. split; [apply Hv | assumption].
Qed.

Lemma neg_neg_eq_concrete x st :
  is_i64 (data_ x) -> is_symbolic x = false ->
  neg_neg_eq x st = if 2 ^ 62 <? data_ x then Throw CheckFailed st else Ok true st.
Proof.
  intros Hi Hs. pose proof (concrete_range x Hi Hs) as Hr.
  unfold neg_neg_eq.
  assert (Hn : to_i64 (- data_ x) = - data_ x)
    by (apply to_i64_small; unfold is_i64; lia).
  destruct (Z.ltb_spec (2 ^ 62) (data_ x)) as [Hbig | Hsmall].
  - erewrite bind_Throw; [reflexivity|].
    rewrite operator_neg_concrete, Hn, SymInt_ctor_spec by (assumption || (unfold is_i64; lia)).
    destruct (Z.ltb_spec (- data_ x) (- 2 ^ 62)); [reflexivity | lia].
  - assert (Hy : is_symbolic (mkSymInt (- data_ x)) = false)
      by (apply is_symbolic_false; unfold is_i64; lia).
    erewrite bind_Ok with (a := mkSymInt (- data_ x)) (st' := st).
    2: { rewrite operator_neg_concrete, Hn, SymInt_ctor_spec
           by (assumption || (unfold is_i64; lia)).
         destruct (Z.ltb_spec (- data_ x) (- 2 ^ 62)); [lia | reflexivity]. }
    erewrite bind_Ok with (a := x) (st' := st).
    2: { rewrite operator_neg_concrete by assumption. cbn [data_].
         rewrite Z.opp_involutive, to_i64_small, SymInt_ctor_spec by assumption.
         destruct (Z.ltb_spec (data_ x) (- 2 ^ 62)); [lia | now destruct x]. }
    unfold operator_eq.
    rewrite (bind_Ok _ _ _ _ _ (cmp_operator_concrete _ _ _ _ _ Hs Hs)).
    rewrite (bind_Ok _ _ _ _ _ (SymInt_destroy_concrete _ _ Hs)).
    rewrite (bind_Ok _ _ _ _ _ (SymInt_destroy_concrete _ _ Hy)).
    unfold ret. now rewrite Z.eqb_refl.
Qed.

Lemma neg_neg_eq_symbolic x st :
  lawful (B := B) -> owned st x -> is_symbolic x = true ->
  neg_neg_eq x st =
    (let n := toSymIntNodeImplUnowned x in
     let '(r1, b1) := neg n (backend st) in
     let '(r2, b2) := neg r1 b1 in
     let '(e, b3) := binary Node.eq r2 n b2 in
     let '(v, b4) := bool_ e b3 in
     Ok v (mkState (refcount st) b4
             (calls st ++ [Node.Neg n; Node.Neg r1; Node.Binary Node.eq r2 n; Node.Bool_ e]))).
Proof.
  intros Hl Hx Hs. cbv zeta. unfold neg_neg_eq.
  destruct Hx as [Hi Hox]. destruct (Hox Hs) as [Hn Hc].
  pose proof Hl as (_ & _ & Hneg).
  (* first negation *)
  pose proof (operator_neg_symbolic x st Hl (conj Hi Hox) Hs) as H1.
  unfold spec_negate in H1.
  pose proof (Hneg (toSymIntNodeImplUnowned x) (backend st)) as Hv1.
  destruct (neg (toSymIntNodeImplUnowned x) (backend st)) as [r1 b1].
  cbn [fst] in Hv1.
  rewrite (bind_Ok _ _ _ _ _ H1). clear H1.
  (* second negation *)
  set (st1 := mkState (incr r1 (refcount st)) b1
                (calls st ++ [Node.Neg (toSymIntNodeImplUnowned x)])).
  assert (Hy : owned st1 (toSymInt r1))
    by (apply owned_packed; [assumption | unfold st1; count_solve]).
  pose proof (operator_neg_symbolic (toSymInt r1) st1 Hl Hy
                (is_symbolic_valid r1 Hv1)) as H2.
  unfold spec_negate in H2. rewrite (decode_valid r1 Hv1) in H2.
  unfold st1 in H2. cbn [refcount backend calls] in H2.
  pose proof (Hneg r1 b1) as Hv2.
  destruct (neg r1 b1) as [r2 b2]. cbn [fst] in Hv2.
  rewrite (bind_Ok _ _ _ _ _ H2). clear H2.
  (* the comparison *)
  set (st2 := mkState (incr r2 (incr r1 (refcount st))) b2
                ((calls st ++ [Node.Neg (toSymIntNodeImplUnowned x)]) ++ [Node.Neg r1])).
  assert (Hz : owned st2 (toSymInt r2))
    by (apply owned_packed; [assumption | unfold st2; count_solve]).
  assert (Hx2 : owned st2 x).
  { split; [assumption|]. intros _. split; [assumption|]. unfold st2. count_solve. }
  pose proof (cmp_operator_symbolic Z.eqb Node.eq (toSymInt r2) x st2 Hl Hz Hx2) as H3.
  rewrite (is_symbolic_valid r2 Hv2) in H3. specialize (H3 eq_refl).
  unfold spec_compare, spec_normalize in H3.
  rewrite (is_symbolic_valid r2 Hv2), Hs, (decode_valid r2 Hv2) in H3.
  unfold st2 in H3. cbn [refcount backend calls] in H3.
  pose proof (proj1 (proj2 Hl) Node.eq r2 (toSymIntNodeImplUnowned x) b2) as Hv3.
  destruct (binary Node.eq r2 (toSymIntNodeImplUnowned x) b2) as [e b3].
  destruct (bool_ e b3) as [v b4].
  unfold operator_eq. rewrite (bind_Ok _ _ _ _ _ H3). clear H3.
  (* the temporaries *)
  pose proof (proj1 Hv1) as Hr1. pose proof (proj1 Hv2) as Hr2.
  step SymInt_destroy_packed.
  step SymInt_destroy_packed.
  unfold ret. f_equal. f_equal.
  - apply count_ext. intros q. count_solve.
  - rewrite <- !app_assoc. reflexivity.
Qed.

(** C9 (amended).  For a concrete [x] with literal at most [2^62], the
    expression [-(-x) == x] is true and leaves the store as it was; for
    a concrete [x] above [2^62] the first negation falls in the reserved
    range and the constructor throws.  For a symbolic [x] on the node
    [n] the expression calls [neg] twice, then [eq] on the result and
    [n], and returns what [bool_] answers on the node of that
    comparison: it is true exactly when the backend says so.  Every
    count is as before. *)
Theorem neg_neg_eq_spec x st :
  lawful (B := B) -> owned st x ->
  (is_symbolic x = false ->
     neg_neg_eq x st = if 2 ^ 62 <? data_ x then Throw CheckFailed st else Ok true st) /\
  (is_symbolic x = true ->
     neg_neg_eq x st =
       (let n := toSymIntNodeImplUnowned x in
        let '(r1, b1) := neg n (backend st) in
        let '(r2, b2) := neg r1 b1 in
        let '(e, b3) := binary Node.eq r2 n b2 in
        let '(v, b4) := bool_ e b3 in
        Ok v (mkState (refcount st) b4
                (calls st ++
                 [Node.Neg n; Node.Neg r1; Node.Binary Node.eq r2 n; Node.Bool_ e])))).
Proof.
  intros Hl Hx. split; intros Hs.
  - apply neg_neg_eq_concrete; [apply Hx | assumption].
  - now apply neg_neg_eq_symbolic.
Qed.

End DoubleNegation.

(** C9 (counterexample).  [2^62 + 1] is a concrete scalar, and
    [-(-x) == x] on it throws instead of being true; on a symbolic
    scalar, with a backend whose [bool_] answers false, it is false. *)
Lemma neg_neg_eq_not_true :
  is_symbolic (mkSymInt (2 ^ 62 + 1)) = false /\
  neg_neg_eq (mkSymInt (2 ^ 62 + 1)) (Numbering.store 16 true)
    = Throw CheckFailed (Numbering.store 16 true) /\
  is_symbolic (toSymInt 1600) = true /\
  neg_neg_eq (toSymInt 1600) (Numbering.store 1600 false)
    = Ok false
        (mkState {[ 1600 := 1%positive ]} (Numbering.mk 3 false)
           [Node.Neg 1600; Node.Neg 16; Node.Binary Node.eq 32 1600; Node.Bool_ 48]).
Proof.
  split; [vm_compute; reflexivity|].
  split; [vm_compute; reflexivity|].
  split; vm_compute; reflexivity.
Qed.

(** C9 at the literal 7 and at a scalar on the node at 1600. *)
Lemma neg_neg_eq_spec_witness :
  neg_neg_eq (mkSymInt 7) (Numbering.store 1600 true) = Ok true (Numbering.store 1600 true) /\
  neg_neg_eq (toSymInt 1600) (Numbering.store 1600 true)
    = Ok true
        (mkState {[ 1600 := 1%positive ]} (Numbering.mk 3 true)
           [Node.Neg 1600; Node.Neg 16; Node.Binary Node.eq 32 1600; Node.Bool_ 48]).
Proof.
  assert (Hc : owned (Numbering.store 1600 true) (mkSymInt 7))
    by (apply owned_concrete; [unfold is_i64; cbn; lia | vm_compute; reflexivity]).
  pose proof (proj1 (neg_neg_eq_spec (mkSymInt 7) (Numbering.store 1600 true)
                       Numbering_lawful Hc) eq_refl) as H7.
  pose proof (proj2 (neg_neg_eq_spec (toSymInt 1600) (Numbering.store 1600 true)
                       Numbering_lawful Numbering_store_owned) eq_refl) as Hs.
  split.
  - etransitivity; [exact H7 | vm_compute; reflexivity].
  - etransitivity; [exact Hs | vm_compute; reflexivity].
Defined.


(** ** Sessions keep the counts balanced *)

Section Balance.

Context {B : Type} `{SymIntNodeImpl B}.
Implicit Types (st : state B) (s a b x : SymInt) (l env : list SymInt).

Lemma unit_of_bounds s q : 0 <= unit_of s q <= 1.
Proof. unfold unit_of. destruct (is_symbolic s); [apply ind_bounds | lia]. Qed.

Lemma unit_of_own s :
  is_symbolic s = true -> unit_of s (toSymIntNodeImplUnowned s) = 1.
Proof. intros Hs. unfold unit_of. rewrite Hs. apply ind_refl. Qed.

Lemma unit_of_concrete s q : is_symbolic s = false -> unit_of s q = 0.
Proof. intros Hs. unfold unit_of. now rewrite Hs. Qed.

Lemma unit_of_packed p q : valid_ptr p -> unit_of (toSymInt p) q = ind p q.
Proof.
  intros Hv. unfold unit_of.
  now rewrite is_symbolic_valid, decode_valid.
Qed.

Lemma owners_cons s l q : owners (s :: l) q = unit_of s q + owners l q.
Proof. reflexivity. Qed.

Lemma owners_app l1 l2 q : owners (l1 ++ l2) q = owners l1 q + owners l2 q.
Proof.
  induction l1 as [|s l1 IH]; [reflexivity|].
  cbn [app]. rewrite !owners_cons, IH. lia.
Qed.

Lemma owners_rev l q : owners (rev l) q = owners l q.
Proof.
  induction l as [|s l IH]; [reflexivity|].
  cbn [rev]. rewrite owners_app, IH, !owners_cons. cbn. lia.
Qed.

Lemma owners_nonneg l q : 0 <= owners l q.
Proof.
  induction l as [|s l IH]; [cbn; lia|].
  rewrite owners_cons. pose proof (unit_of_bounds s q). lia.
Qed.

Lemma owners_member s l :
  In s l -> is_symbolic s = true -> 1 <= owners l (toSymIntNodeImplUnowned s).
Proof.
  intros Hin Hs. induction l as [|s' l IH]; [contradiction|].
  rewrite owners_cons. destruct Hin as [-> | Hin].
  - rewrite unit_of_own by assumption.
    pose proof (owners_nonneg l (toSymIntNodeImplUnowned s)). lia.
  - pose proof (unit_of_bounds s' (toSymIntNodeImplUnowned s)).
    specialize (IH Hin). lia.
Qed.

Lemma well_formed_concrete d :
  is_i64 d -> is_symbolic (mkSymInt d) = false -> well_formed (mkSymInt d).
Proof. intros Hi Hs. split; [assumption|]. rewrite Hs. discriminate. Qed.

Lemma well_formed_packed p : valid_ptr p -> well_formed (toSymInt p).
Proof.
  intros Hv. split; [apply toSymInt_i64|].
  intros _. rewrite decode_valid by assumption. apply Hv.
Qed.

Lemma owned_well_formed st s : owned st s -> well_formed s.
Proof. intros [Hi Ho]. split; [assumption|]. intros Hs. now apply Ho. Qed.

(** *** What each operation does to the counts *)

Lemma SymInt_ctor_produces d st :
  is_i64 d -> produces (SymInt_ctor d st) st.
Proof.
  intros Hi. unfold SymInt_ctor.
  destruct (is_symbolic (mkSymInt d)) eqn:Hs; cbn.
  - now left.
  - split; [now apply well_formed_concrete|].
    intros q. rewrite unit_of_concrete by assumption. lia.
Qed.

Lemma spec_dispatch_produces m a b st :
  lawful (B := B) -> produces (spec_dispatch m a b st) st.
Proof.
  intros (_ & Hbin & _). unfold spec_dispatch.
  destruct (spec_normalize a b (backend st)) as [[[na nb] bk1] log].
  specialize (Hbin m na nb bk1).
  destruct (binary m na nb bk1) as [r bk2]. cbn [fst] in Hbin. cbn.
  split; [now apply well_formed_packed|].
  intros q. rewrite unit_of_packed by assumption. count_solve.
Qed.

Lemma apply_arith_produces o a b st :
  lawful (B := B) -> owned st a -> owned st b ->
  produces (apply_arith o a b st) st.
Proof.
  intros Hl Ha Hb.
  destruct (is_symbolic a || is_symbolic b) eqn:Hs.
  - rewrite apply_arith_symbolic by assumption.
    now apply spec_dispatch_produces.
  - apply orb_false_elim in Hs. destruct Hs as [Hsa Hsb].
    pose proof (concrete_range a (proj1 Ha) Hsa).
    pose proof (concrete_range b (proj1 Hb) Hsb).
    rewrite apply_arith_concrete by assumption.
    destruct o; try (apply SymInt_ctor_produces, to_i64_range).
    + destruct (data_ b =? 0); [now right | apply SymInt_ctor_produces, to_i64_range].
    + destruct (data_ b =? 0); [now right | apply SymInt_ctor_produces, to_i64_range].
    + apply SymInt_ctor_produces. unfold is_i64. lia.
    + apply SymInt_ctor_produces. unfold is_i64. lia.
Qed.

Lemma operator_neg_produces s st :
  lawful (B := B) -> owned st s -> produces (operator_neg s st) st.
Proof.
  intros Hl Hs. destruct (is_symbolic s) eqn:Hsym.
  - rewrite operator_neg_symbolic by assumption.
    unfold spec_negate. destruct Hl as (_ & _ & Hneg).
    specialize (Hneg (toSymIntNodeImplUnowned s) (backend st)).
    destruct (neg _ _) as [r bk]. cbn [fst] in Hneg. cbn.
    split; [now apply well_formed_packed|].
    intros q. rewrite unit_of_packed by assumption. count_solve.
  - rewrite operator_neg_concrete by assumption.
    apply SymInt_ctor_produces, to_i64_range.
Qed.

Lemma SymInt_copy_produces s st :
  owned st s -> produces (SymInt_copy s st) st.
Proof.
  intros Hs. pose proof (owned_well_formed st s Hs) as Hw.
  destruct Hs as [Hi Ho]. destruct (is_symbolic s) eqn:Hsym.
  - destruct (Ho eq_refl) as [Hn Hc].
    rewrite SymInt_copy_symbolic by assumption. cbn.
    split; [assumption|]. intros q. unfold unit_of. rewrite Hsym. count_solve.
  - rewrite SymInt_copy_concrete by assumption. cbn.
    split; [assumption|]. intros q. rewrite unit_of_concrete by assumption. lia.
Qed.

Lemma spec_compare_preserves m a b st : preserves (spec_compare m a b st) st.
Proof.
  unfold spec_compare.
  destruct (spec_normalize a b (backend st)) as [[[na nb] bk1] log].
  destruct (binary m na nb bk1) as [r bk2].
  now destruct (bool_ r bk2).
Qed.

Lemma apply_cmp_preserves o a b st :
  lawful (B := B) -> owned st a -> owned st b ->
  preserves (apply_cmp o a b st) st.
Proof.
  intros Hl Ha Hb.
  destruct (is_symbolic a || is_symbolic b) eqn:Hs.
  - rewrite apply_cmp_symbolic by assumption.
    destruct o; try apply spec_compare_preserves.
    pose proof (spec_compare_preserves Node.eq a b st) as Hp.
    now destruct (spec_compare Node.eq a b st).
  - apply orb_false_elim in Hs. destruct Hs as [Hsa Hsb].
    now rewrite apply_cmp_concrete.
Qed.

(** The helper and the release of the array it returns. *)
Lemma normalize_then_release a b st :
  lawful (B := B) -> owned st a -> owned st b ->
  is_symbolic a || is_symbolic b = true ->
  exists bk log,
    (let* res := normalize_symints a b in
     let* _ := reset (snd res) in
     reset (fst res)) st
    = Ok tt (mkState (refcount st) bk (calls st ++ log)).
Proof.
  intros Hl Ha Hb Hs.
  pose proof (normalize_symints_spec a b st Hl Ha Hb Hs) as Hn.
  pose proof (spec_normalize_valid a b st Hl Ha Hb Hs) as Hv.
  destruct (spec_normalize a b (backend st)) as [[[na nb] bk1] log].
  destruct Hv as [Hna Hnb]. exists bk1, log.
  rewrite (bind_Ok _ _ _ _ _ Hn). cbn [fst snd].
  step reset_live.
  rewrite reset_live by (first [assumption | count_solve]).
  finish.
Qed.

(** *** The invariant of a session *)

Lemma balanced_start st env0 : balanced st env0 st env0.
Proof.
  exists []. rewrite app_nil_r. repeat split; [constructor|].
  intros q. cbn. lia.
Qed.

Lemma balanced_owned st0 env0 st env i :
  Forall (owned st0) env0 -> balanced st0 env0 st env ->
  owned st (operand env i).
Proof.
  intros H0 (made & -> & Hwf & Hc). unfold operand.
  destruct (nth_in_or_default i (env0 ++ made) (mkSymInt 0)) as [Hin | ->].
  - apply in_app_or in Hin. destruct Hin as [Hin | Hin].
    + rewrite List.Forall_forall in H0. specialize (H0 _ Hin).
      apply (owned_grow st0); [|assumption].
      intros q. rewrite Hc. pose proof (owners_nonneg made q). lia.
    + rewrite List.Forall_forall in Hwf. destruct (Hwf _ Hin) as [Hi Hn].
      split; [assumption|]. intros Hs. split; [now apply Hn|].
      rewrite Hc. pose proof (owners_member _ _ Hin Hs).
      pose proof (count_nonneg (refcount st0)
                    (toSymIntNodeImplUnowned (nth i (env0 ++ made) (mkSymInt 0)))).
      lia.
  - apply owned_concrete; [unfold is_i64; cbn; lia | reflexivity].
Qed.

Lemma balanced_push st0 env0 st env out st' :
  balanced st0 env0 st env ->
  produces (Ok out st') st ->
  balanced st0 env0 st' (env ++ [out]).
Proof.
  intros (made & -> & Hwf & Hc) [Hw Hp].
  exists (made ++ [out]). split; [now rewrite app_assoc|]. split.
  - apply Forall_app. split; [assumption | now constructor].
  - intros q. rewrite Hp, Hc, owners_app, owners_cons. cbn. lia.
Qed.

Lemma balanced_keep st0 env0 st env st' :
  balanced st0 env0 st env -> refcount st' = refcount st ->
  balanced st0 env0 st' env.
Proof.
  intros (made & -> & Hwf & Hc) Heq. exists made.
  repeat split; try assumption. intros q. now rewrite Heq.
Qed.

Lemma exec_balanced c st0 env0 st env :
  lawful (B := B) -> Forall (owned st0) env0 -> balanced st0 env0 st env ->
  step_ok st0 env0 (exec c env st).
Proof.
  intros Hl H0 Hb.
  pose proof (balanced_owned st0 env0 st env) as Hop.
  destruct c as [i | o i j | i | o i j | i j]; cbn [exec].
  - pose proof (SymInt_copy_produces _ st (Hop i H0 Hb)) as Hp.
    unfold bind. destruct (SymInt_copy (operand env i) st) as [out st' | e st'];
      [|exact Hp].
    now apply (balanced_push st0 env0 st).
  - pose proof (apply_arith_produces o _ _ st Hl (Hop i H0 Hb) (Hop j H0 Hb)) as Hp.
    unfold bind.
    destruct (apply_arith o (operand env i) (operand env j) st) as [out st' | e st'];
      [|exact Hp].
    now apply (balanced_push st0 env0 st).
  - pose proof (operator_neg_produces _ st Hl (Hop i H0 Hb)) as Hp.
    unfold bind. destruct (operator_neg (operand env i) st) as [out st' | e st'];
      [|exact Hp].
    now apply (balanced_push st0 env0 st).
  - pose proof (apply_cmp_preserves o _ _ st Hl (Hop i H0 Hb) (Hop j H0 Hb)) as Hp.
    unfold bind.
    destruct (apply_cmp o (operand env i) (operand env j) st) as [v st' | e st'];
      [|exact Hp].
    now apply (balanced_keep st0 env0 st).
  - destruct (both_concrete (operand env i) (operand env j)) eqn:Hbc; [exact Hb|].
    assert (Hs : is_symbolic (operand env i) || is_symbolic (operand env j) = true).
    { unfold both_concrete in Hbc.
      destruct (is_symbolic (operand env i)), (is_symbolic (operand env j));
        trivial; discriminate. }
    destruct (normalize_then_release _ _ st Hl (Hop i H0 Hb) (Hop j H0 Hb) Hs)
      as (bk & log & Hn).
    unfold bind in Hn |- *.
    destruct (normalize_symints (operand env i) (operand env j) st)
      as [res st1 | e st1]; [|discriminate].
    destruct (reset res.2 st1) as [[] st2 | e st2]; [|discriminate].
    destruct (reset res.1 st2) as [[] st3 | e st3]; [|discriminate].
    injection Hn as ->. now apply (balanced_keep st0 env0 st).
Qed.

Lemma run_balanced prog st0 env0 st env :
  lawful (B := B) -> Forall (owned st0) env0 -> balanced st0 env0 st env ->
  step_ok st0 env0 (run prog env st).
Proof.
  intros Hl H0. revert st env.
  induction prog as [|c prog IH]; intros st env Hb; [exact Hb|].
  cbn [run]. pose proof (exec_balanced c st0 env0 st env Hl H0 Hb) as Hc.
  unfold bind. destruct (exec c env st) as [env' st' | e st']; [|exact Hc].
  now apply IH.
Qed.

(** Destroying scalars whose units are all in the store. *)
Lemma discard_spec l st :
  Forall well_formed l ->
  (forall q, owners l q <= count (refcount st) q) ->
  exists m,
    discard l st = Ok tt (mkState m (backend st) (calls st)) /\
    forall q, count m q = count (refcount st) q - owners l q.
Proof.
  revert st. induction l as [|s l IH]; intros st Hwf Hle.
  - exists (refcount st). split; [now destruct st|]. intros q. cbn. lia.
  - inversion Hwf as [|? ? [Hi Hn] Hwf']; subst. cbn [discard].
    destruct (is_symbolic s) eqn:Hs.
    + assert (Hc : 0 < count (refcount st) (toSymIntNodeImplUnowned s)).
      { specialize (Hle (toSymIntNodeImplUnowned s)).
        rewrite owners_cons, unit_of_own in Hle by assumption.
        pose proof (owners_nonneg l (toSymIntNodeImplUnowned s)). lia. }
      rewrite (bind_Ok _ _ _ _ _ (SymInt_destroy_symbolic s st Hs (Hn eq_refl) Hc)).
      set (st1 := mkState (decr (toSymIntNodeImplUnowned s) (refcount st))
                          (backend st) (calls st)).
      assert (Hq : forall q, count (refcount st1) q
                             = count (refcount st) q - unit_of s q).
      { intros q. specialize (Hle q). rewrite owners_cons in Hle.
        pose proof (owners_nonneg l q).
        unfold st1, unit_of in *. rewrite Hs in *. count_solve. }
      destruct (IH st1 Hwf') as (m & Hd & Hm).
      { intros q. specialize (Hle q). rewrite owners_cons in Hle. rewrite Hq. lia. }
      exists m. split; [exact Hd|].
      intros q. rewrite Hm, Hq, owners_cons. lia.
    + rewrite (bind_Ok _ _ _ _ _ (SymInt_destroy_concrete s st Hs)).
      destruct (IH st Hwf') as (m & Hd & Hm).
      { intros q. specialize (Hle q).
        rewrite owners_cons, unit_of_concrete in Hle by assumption. lia. }
      exists m. split; [exact Hd|].
      intros q. rewrite Hm, owners_cons, unit_of_concrete by assumption. lia.
Qed.

Lemma session_balanced prog env0 st :
  lawful (B := B) -> Forall (owned st) env0 ->
  preserves (session prog env0 st) st.
Proof.
  intros Hl H0. unfold session.
  pose proof (run_balanced prog st env0 st env0 Hl H0 (balanced_start st env0)) as Hr.
  unfold bind. destruct (run prog env0 st) as [env st1 | e st1]; [|exact Hr].
  destruct Hr as (made & -> & Hwf & Hc).
  rewrite skipn_app, skipn_all, Nat.sub_diag. cbn [app]. rewrite skipn_O.
  destruct (discard_spec (rev made) st1) as (m & Hd & Hm).
  - now apply Forall_rev.
  - intros q. rewrite owners_rev, Hc.
    pose proof (count_nonneg (refcount st) q). lia.
  - rewrite Hd. cbn. apply count_ext. intros q.
    rewrite Hm, owners_rev, Hc. lia.
Qed.

End Balance.


Section Progress.

Context {B : Type} `{SymIntNodeImpl B}.
Implicit Types (st : state B) (s a b x : SymInt) (l env : list SymInt).

Lemma operand_symbolic env i :
  all_symbolic env -> (i < length env)%nat -> is_symbolic (operand env i) = true.
Proof.
  intros Hall Hi. unfold all_symbolic in Hall. rewrite List.Forall_forall in Hall.
  apply Hall. unfold operand. now apply nth_In.
Qed.

Lemma all_symbolic_push env s :
  all_symbolic env -> is_symbolic s = true -> all_symbolic (env ++ [s]).
Proof.
  intros Hall Hs. apply Forall_app. split; [assumption | now constructor].
Qed.

Lemma spec_dispatch_Ok m a b st :
  lawful (B := B) ->
  exists out st', spec_dispatch m a b st = Ok out st' /\ is_symbolic out = true.
Proof.
  intros (_ & Hbin & _). unfold spec_dispatch.
  destruct (spec_normalize a b (backend st)) as [[[na nb] bk1] log].
  specialize (Hbin m na nb bk1).
  destruct (binary m na nb bk1) as [r bk2]. cbn [fst] in Hbin.
  eexists _, _. split; [reflexivity | now apply is_symbolic_valid].
Qed.

Lemma spec_compare_Ok m a b st :
  exists v st', spec_compare m a b st = Ok v st'.
Proof.
  unfold spec_compare.
  destruct (spec_normalize a b (backend st)) as [[[na nb] bk1] log].
  destruct (binary m na nb bk1) as [r bk2].
  destruct (bool_ r bk2) as [v bk3]. now eexists _, _.
Qed.

(** On symbolic operands no step of a session throws. *)
Lemma exec_symbolic c st0 env0 st env :
  lawful (B := B) -> Forall (owned st0) env0 -> balanced st0 env0 st env ->
  all_symbolic env -> well_scoped [c] (length env) = true ->
  exists env' st',
    exec c env st = Ok env' st' /\ all_symbolic env' /\
    forall prog, well_scoped (c :: prog) (length env) = true ->
                 well_scoped prog (length env') = true.
Proof.
  intros Hl H0 Hb Hall Hsc.
  pose proof (balanced_owned st0 env0 st env) as Hop.
  destruct c as [i | o i j | i | o i j | i j]; cbn [exec well_scoped] in *;
    rewrite ?andb_true_r in Hsc;
    repeat match goal with
      | Hx : _ && _ = true |- _ => apply andb_true_iff in Hx; destruct Hx
      | Hx : (_ <? _)%nat = true |- _ => apply Nat.ltb_lt in Hx
      end.
  - pose proof (operand_symbolic env i Hall ltac:(assumption)) as Hs.
    destruct (Hop i H0 Hb) as [Hi Ho]. destruct (Ho Hs) as [Hn Hc].
    rewrite (bind_Ok _ _ _ _ _ (SymInt_copy_symbolic _ st Hi Hs Hn Hc)).
    eexists _, _. split; [reflexivity|]. split; [now apply all_symbolic_push|].
    intros prog Hp.
    apply andb_true_iff in Hp. rewrite length_app, Nat.add_1_r. apply Hp.
  - pose proof (operand_symbolic env i Hall ltac:(assumption)) as Hs.
    unfold bind. rewrite apply_arith_symbolic by (auto; rewrite Hs; reflexivity).
    destruct (spec_dispatch_Ok (method_of_arith o) (operand env i) (operand env j) st Hl)
      as (out & st' & -> & Hout).
    eexists _, _. split; [reflexivity|]. split; [now apply all_symbolic_push|].
    intros prog Hp.
    apply andb_true_iff in Hp. rewrite length_app, Nat.add_1_r. apply Hp.
  - pose proof (operand_symbolic env i Hall ltac:(assumption)) as Hs.
    unfold bind. rewrite operator_neg_symbolic by auto.
    unfold spec_negate. pose proof Hl as (_ & _ & Hneg).
    specialize (Hneg (toSymIntNodeImplUnowned (operand env i)) (backend st)).
    destruct (neg _ _) as [r bk]. cbn [fst] in Hneg.
    eexists _, _. split; [reflexivity|].
    split; [apply all_symbolic_push; [assumption | now apply is_symbolic_valid]|].
    intros prog Hp.
    apply andb_true_iff in Hp. rewrite length_app, Nat.add_1_r. apply Hp.
  - pose proof (operand_symbolic env i Hall ltac:(assumption)) as Hs.
    unfold bind. rewrite apply_cmp_symbolic by (auto; rewrite Hs; reflexivity).
    assert (Hok : exists v st',
               match o with
               | op_ne => outcome_map negb
                            (spec_compare Node.eq (operand env i) (operand env j) st)
               | _ => spec_compare (method_of_cmp o) (operand env i) (operand env j) st
               end = Ok v st').
    { destruct o; try apply spec_compare_Ok.
      destruct (spec_compare_Ok Node.eq (operand env i) (operand env j) st)
        as (v & st' & ->). now eexists _, _. }
    destruct Hok as (v & st' & ->).
    eexists _, _. split; [reflexivity|]. split; [assumption|].
    intros prog Hp.
    apply andb_true_iff in Hp. apply Hp.
  - pose proof (operand_symbolic env i Hall ltac:(assumption)) as Hs.
    assert (Hor : is_symbolic (operand env i) || is_symbolic (operand env j) = true)
      by (rewrite Hs; reflexivity).
    rewrite both_concrete_false by assumption.
    destruct (normalize_then_release _ _ st Hl (Hop i H0 Hb) (Hop j H0 Hb) Hor)
      as (bk & log & Hn).
    unfold bind in Hn |- *.
    destruct (normalize_symints (operand env i) (operand env j) st)
      as [res st1 | e st1]; [|discriminate].
    destruct (reset res.2 st1) as [[] st2 | e st2]; [|discriminate].
    destruct (reset res.1 st2) as [[] st3 | e st3]; [|discriminate].
    eexists _, _. split; [reflexivity|]. split; [assumption|].
    intros prog Hp.
    apply andb_true_iff in Hp. apply Hp.
Qed.

Lemma well_scoped_head c prog n :
  well_scoped (c :: prog) n = true -> well_scoped [c] n = true.
Proof.
  destruct c; cbn [well_scoped]; rewrite ?andb_true_r;
    intros Hp; apply andb_true_iff in Hp; apply Hp.
Qed.

Lemma run_symbolic prog st0 env0 st env :
  lawful (B := B) -> Forall (owned st0) env0 -> balanced st0 env0 st env ->
  all_symbolic env -> well_scoped prog (length env) = true ->
  exists env' st', run prog env st = Ok env' st'.
Proof.
  intros Hl H0. revert st env.
  induction prog as [|c prog IH]; intros st env Hb Hall Hsc.
  - now eexists _, _.
  - destruct (exec_symbolic c st0 env0 st env Hl H0 Hb Hall
                (well_scoped_head _ _ _ Hsc))
      as (env' & st' & He & Hall' & Hnext).
    pose proof (exec_balanced c st0 env0 st env Hl H0 Hb) as Hb'.
    rewrite He in Hb'. cbn [run]. rewrite (bind_Ok _ _ _ _ _ He).
    apply IH; auto.
Qed.

End Progress.


(** C2.  A client starts from scalars [env0] that own their nodes, runs
    any sequence of scalar operations on them and on the scalars it makes
    (copies, arithmetic and [min]/[max], negation, comparisons, calls of
    [normalize_symints]), and then destroys every scalar it has made.
    When the session returns, the count of every node is what it was
    before: each unit taken inside [normalize_symints] and the operators
    has been released once, and no count was touched on a node without
    an owner (the session never fails with a dangling reference or a null
    dereference; it can only throw from a literal computation).  When
    all the scalars at the start are symbolic and the operands are in
    scope, the session does return. *)
Theorem refcount_discipline {B : Type} `{SymIntNodeImpl B}
    (prog : list instr) (env0 : list SymInt) (st : state B) :
  lawful (B := B) -> Forall (owned st) env0 ->
  match session prog env0 st with
  | Ok _ st' => refcount st' = refcount st
  | Throw e _ => e = CheckFailed \/ e = DivisionByZero
  end /\
  (all_symbolic env0 -> well_scoped prog (length env0) = true ->
   exists st', session prog env0 st = Ok tt st' /\ refcount st' = refcount st).
Proof.
  intros Hl H0.
  pose proof (session_balanced prog env0 st Hl H0) as Hp.
  split; [exact Hp|].
  intros Hall Hsc.
  destruct (run_symbolic prog st env0 st env0 Hl H0 (balanced_start st env0) Hall Hsc)
    as (env & st1 & Hrun).
  pose proof (run_balanced prog st env0 st env0 Hl H0 (balanced_start st env0)) as Hb.
  rewrite Hrun in Hb. destruct Hb as (made & -> & Hwf & Hc).
  destruct (discard_spec (rev made) st1) as (m & Hd & Hm).
  - now apply Forall_rev.
  - intros q. rewrite owners_rev, Hc.
    pose proof (count_nonneg (refcount st) q). lia.
  - unfold session in *. rewrite (bind_Ok _ _ _ _ _ Hrun) in Hp |- *.
    rewrite skipn_app, skipn_all, Nat.sub_diag in Hp |- *.
    cbn [app] in Hp |- *. rewrite skipn_O in Hp |- *.
    rewrite Hd in Hp |- *. eexists. split; [reflexivity | exact Hp].
Qed.


(** C2 on a session of seven steps over one scalar on the node at
    1600. *)
Lemma refcount_discipline_witness :
  session [Copy 0; Copy 0; Arith op_add 0 1; Negate 3; Compare op_lt 0 4;
           Normalize 2 4; Arith op_min 4 2]
    [toSymInt 1600] (Numbering.store 1600 true)
  = Ok tt (mkState {[ 1600 := 1%positive ]} (Numbering.mk 4 true)
             [Node.Binary Node.add 1600 1600; Node.Neg 16;
              Node.Binary Node.lt 1600 32; Node.Bool_ 48;
              Node.Binary Node.min 32 1600]) /\
  match
    session [Copy 0; Copy 0; Arith op_add 0 1; Negate 3; Compare op_lt 0 4;
             Normalize 2 4; Arith op_min 4 2]
      [toSymInt 1600] (Numbering.store 1600 true)
  with
  | Ok _ st' => refcount st' = refcount (Numbering.store 1600 true)
  | Throw e _ => e = CheckFailed \/ e = DivisionByZero
  end.
Proof.
  assert (Hown : Forall (owned (Numbering.store 1600 true)) [toSymInt 1600])
    by (constructor; [exact Numbering_store_owned | constructor]).
  pose proof (refcount_discipline
                [Copy 0; Copy 0; Arith op_add 0 1; Negate 3; Compare op_lt 0 4;
                 Normalize 2 4; Arith op_min 4 2]
                [toSymInt 1600] (Numbering.store 1600 true)
                Numbering_lawful Hown) as [Hw _].
  split; [vm_compute; reflexivity | exact Hw].
Defined.


(** ** Further properties of the operators *)

(** [operator/] and [operator%] on concrete scalars with a divisor that
    is not zero: the quotient truncated toward zero and its remainder,
    neither of which wraps; the quotient is rejected by the constructor
    only in the reserved range, the remainder never.  The quotient is
    the floor quotient when the operands are not negative. *)
Theorem operator_div_mod_concrete {B : Type} `{SymIntNodeImpl B}
    (a b : SymInt) (st : state B) :
  is_i64 (data_ a) -> is_i64 (data_ b) ->
  is_symbolic a = false -> is_symbolic b = false -> data_ b <> 0 ->
  operator_div a b st =
    (if Z.quot (data_ a) (data_ b) <? - 2 ^ 62 then Throw CheckFailed st
     else Ok (mkSymInt (Z.quot (data_ a) (data_ b))) st) /\
  operator_mod a b st = Ok (mkSymInt (Z.rem (data_ a) (data_ b))) st /\
  (0 <= data_ a -> 0 < data_ b -> Z.quot (data_ a) (data_ b) = data_ a / data_ b).
Proof.
  intros Hia Hib Ha Hb Hnz.
  pose proof (concrete_range a Hia Ha) as Hra.
  pose proof (concrete_range b Hib Hb) as Hrb.
  assert (Hq : is_i64 (Z.quot (data_ a) (data_ b))).
  { unfold is_i64.
    pose proof (Z.quot_abs (data_ a) (data_ b) Hnz) as Habs.
    assert (Z.abs (data_ a) ÷ Z.abs (data_ b) <= Z.abs (data_ a)).
    { apply Z.quot_le_upper_bound; [lia|]. nia. }
    lia. }
  assert (Hr : - 2 ^ 62 <= Z.rem (data_ a) (data_ b) < 2 ^ 63).
  { pose proof (Z.rem_bound_abs (data_ a) (data_ b) Hnz).
    destruct (Z.le_gt_cases 0 (data_ a)) as [Hpos | Hneg].
    - pose proof (Z.rem_nonneg (data_ a) (data_ b) Hnz Hpos). lia.
    - pose proof (Z.rem_nonpos (data_ a) (data_ b) Hnz ltac:(lia)).
      pose proof (Z.rem_abs (data_ a) (data_ b) Hnz).
      assert (Z.abs (Z.rem (data_ a) (data_ b)) <= Z.abs (data_ a)).
      { rewrite <- Z.rem_abs by assumption.
        destruct (Z.le_gt_cases (Z.abs (data_ b)) (Z.abs (data_ a))).
        - pose proof (Z.rem_bound_pos (Z.abs (data_ a)) (Z.abs (data_ b))). lia.
        - rewrite Z.rem_small; lia. }
      lia. }
  split; [|split].
  - change (operator_div a b st) with (apply_arith op_div a b st).
    rewrite apply_arith_concrete by assumption.
    destruct (Z.eqb_spec (data_ b) 0); [contradiction|].
    now rewrite to_i64_small, SymInt_ctor_spec.
  - change (operator_mod a b st) with (apply_arith op_mod a b st).
    rewrite apply_arith_concrete by assumption.
    destruct (Z.eqb_spec (data_ b) 0); [contradiction|].
    rewrite to_i64_small, SymInt_ctor_spec by (unfold is_i64; lia).
    destruct (Z.ltb_spec (Z.rem (data_ a) (data_ b)) (- 2 ^ 62)); [lia|reflexivity].
  - intros Hpa Hpb. apply Z.quot_div_nonneg; lia.
Qed.

(** The quotient and the remainder of -7 by 2. *)
Lemma operator_div_mod_concrete_witness :
  operator_div (mkSymInt (-7)) (mkSymInt 2) (Numbering.store 16 true)
    = Ok (mkSymInt (-3)) (Numbering.store 16 true) /\
  operator_mod (mkSymInt (-7)) (mkSymInt 2) (Numbering.store 16 true)
    = Ok (mkSymInt (-1)) (Numbering.store 16 true).
Proof.
  destruct (operator_div_mod_concrete (mkSymInt (-7)) (mkSymInt 2)
              (Numbering.store 16 true)) as (Hd & Hm & _);
    [unfold is_i64; cbn; lia | unfold is_i64; cbn; lia
    | vm_compute; reflexivity | vm_compute; reflexivity | cbn; lia |].
  exact (conj Hd Hm).
Defined.

(** The tag after construction (spec 8): the word packed by [toSymInt]
    is symbolic whatever the pointer, and a scalar that the constructor
    from a literal returns is concrete and holds that literal. *)
Theorem is_symbolic_after_construction {B : Type} `{SymIntNodeImpl B}
    (p d : Z) (st : state B) :
  is_symbolic (toSymInt p) = true /\
  (forall s st', SymInt_ctor d st = Ok s st' ->
     is_symbolic s = false /\ data_ s = d /\ st' = st).
Proof.
  split.
  - assert (Hu : toSymInt p = toSymInt (to_u64 p)).
    { unfold toSymInt. now rewrite (to_u64_small (to_u64 p)) by apply to_u64_range. }
    rewrite Hu. apply is_symbolic_toSymInt, to_u64_range.
  - intros s st'. unfold SymInt_ctor.
    destruct (is_symbolic (mkSymInt d)) eqn:Hs; [discriminate|].
    intros [= <- <-]. now repeat split.
Qed.

(** Every operator with a symbolic operand follows the protocol of the
    spec: the arithmetic operators, [min] and [max] are the dispatch to
    their node method, and the comparisons other than [!=] are the
    dispatch to theirs followed by [bool_]. *)
Theorem symbolic_operators_dispatch {B : Type} `{SymIntNodeImpl B}
    (a b : SymInt) (st : state B) :
  lawful (B := B) -> owned st a -> owned st b ->
  is_symbolic a || is_symbolic b = true ->
  (forall o, apply_arith o a b st = spec_dispatch (method_of_arith o) a b st) /\
  (forall o, o <> op_ne ->
     apply_cmp o a b st = spec_compare (method_of_cmp o) a b st) /\
  normalize_symints a b st =
    (let '(na, nb, bk, log) := spec_normalize a b (backend st) in
     Ok (na, nb) (mkState (incr na (incr nb (refcount st))) bk (calls st ++ log))).
Proof.
  intros Hl Ha Hb Hs. split; [|split].
  - intros o. now apply apply_arith_symbolic.
  - intros o Ho. rewrite apply_cmp_symbolic by assumption.
    destruct o; try reflexivity. contradiction.
  - now apply normalize_symints_spec.
Qed.

(** [max] of two symbolic scalars, and [>=] of a symbolic scalar and a
    literal. *)
Lemma symbolic_operators_dispatch_witness :
  SymInt_max (toSymInt 1600) (toSymInt 1600) (Numbering.store 1600 true)
    = spec_dispatch Node.max (toSymInt 1600) (toSymInt 1600) (Numbering.store 1600 true) /\
  operator_ge (toSymInt 1600) (mkSymInt 2) (Numbering.store 1600 true)
    = spec_compare Node.ge (toSymInt 1600) (mkSymInt 2) (Numbering.store 1600 true).
Proof.
  assert (Hc : owned (Numbering.store 1600 true) (mkSymInt 2))
    by (apply owned_concrete; [unfold is_i64; cbn; lia | vm_compute; reflexivity]).
  pose proof (symbolic_operators_dispatch (toSymInt 1600) (toSymInt 1600)
                (Numbering.store 1600 true) Numbering_lawful
                Numbering_store_owned Numbering_store_owned eq_refl) as (Ha & _).
  pose proof (symbolic_operators_dispatch (toSymInt 1600) (mkSymInt 2)
                (Numbering.store 1600 true) Numbering_lawful
                Numbering_store_owned Hc eq_refl) as (_ & Hcmp & _).
  split.
  - exact (Ha op_max).
  - apply (Hcmp op_ge). discriminate.
Defined.

(** Copying a scalar and destroying the copy gives back the store as it
    was; the copy is the same word. *)
Theorem copy_then_destroy {B : Type} `{SymIntNodeImpl B} (s : SymInt) (st : state B) :
  owned st s ->
  (let* c := SymInt_copy s in
   let* _ := SymInt_destroy c in
   ret c) st = Ok s (mkState (refcount st) (backend st) (calls st)).
Proof.
  intros [Hi Ho]. destruct (is_symbolic s) eqn:Hs.
  - destruct (Ho eq_refl) as [Hn Hc].
    step SymInt_copy_symbolic.
    step SymInt_destroy_symbolic.
    unfold ret. now rewrite decr_incr.
  - rewrite (bind_Ok _ _ _ _ _ (SymInt_copy_concrete s st Hs)).
    rewrite (bind_Ok _ _ _ _ _ (SymInt_destroy_concrete s st Hs)).
    now destruct st.
Qed.

(** A copy of a scalar on the node at 1600. *)
Lemma copy_then_destroy_witness :
  (let* c := SymInt_copy (toSymInt 1600) in
   let* _ := SymInt_destroy c in
   ret c) (Numbering.store 1600 true) = Ok (toSymInt 1600) (Numbering.store 1600 true).
Proof.
  exact (copy_then_destroy (toSymInt 1600) (Numbering.store 1600 true)
           Numbering_store_owned).
Defined.

(** ** The other members of SymInt.cpp: properties *)


(** ** The overloads on a plain literal *)

Section LiteralOverloads.

Context {B : Type} `{SymIntNodeImpl B}.
Implicit Types (st : state B) (this s a b : SymInt) (d : Z).

Lemma with_literal_reserved {A : Type} d (body : SymInt -> M B A) st :
  is_i64 d -> d < - 2 ^ 62 -> with_literal d body st = Throw CheckFailed st.
Proof.
  intros Hi Hd. unfold with_literal.
  erewrite bind_Throw; [reflexivity|].
  rewrite SymInt_ctor_spec by assumption.
  destruct (Z.ltb_spec d (- 2 ^ 62)); [reflexivity | lia].
Qed.

Lemma with_literal_forward {A : Type} d (body : SymInt -> M B A) st :
  is_i64 d -> - 2 ^ 62 <= d -> with_literal d body st = body (mkSymInt d) st.
Proof.
  intros Hi Hd. unfold with_literal.
  assert (Hs : is_symbolic (mkSymInt d) = false) by now apply is_symbolic_false.
  erewrite bind_Ok with (a := mkSymInt d) (st' := st).
  2: { rewrite SymInt_ctor_spec by assumption.
       destruct (Z.ltb_spec d (- 2 ^ 62)); [lia | reflexivity]. }
  unfold bind. destruct (body (mkSymInt d) st) as [r st' | e st']; [|reflexivity].
  now rewrite SymInt_destroy_concrete.
Qed.

Lemma apply_cmp_int_unfold o this d st :
  apply_cmp_int o this d st = with_literal d (apply_cmp o this) st.
Proof. now destruct o. Qed.

End LiteralOverloads.

(** The overloads that take an [int64_t] on the right are forwarding, and
    the literal goes through the checked constructor first: a literal
    below [-2^62] makes each of them throw with the store untouched,
    whatever the left operand is, and any other literal gives exactly
    what the scalar operator gives on the scalar of that literal. *)
Theorem literal_overloads_forward {B : Type} `{SymIntNodeImpl B}
    (o : cmp_op) (this : SymInt) (d : Z) (st : state B) :
  is_i64 d ->
  (d < - 2 ^ 62 ->
     apply_cmp_int o this d st = Throw CheckFailed st /\
     operator_mul_int this d st = Throw CheckFailed st) /\
  (- 2 ^ 62 <= d ->
     apply_cmp_int o this d st = apply_cmp o this (mkSymInt d) st /\
     operator_mul_int this d st = operator_mul this (mkSymInt d) st).
Proof.
  intros Hi. split; intros Hd; split.
  - rewrite apply_cmp_int_unfold. now apply with_literal_reserved.
  - now apply with_literal_reserved.
  - rewrite apply_cmp_int_unfold. now apply with_literal_forward.
  - now apply with_literal_forward.
Qed.

(** [x < 5] on a literal 5 and on a scalar at 1600; the literal [-2^62 - 1]
    is refused. *)
Lemma literal_overloads_forward_witness :
  operator_lt_int (mkSymInt 3) 5 (Numbering.store 1600 true)
    = operator_lt (mkSymInt 3) (mkSymInt 5) (Numbering.store 1600 true) /\
  operator_mul_int (toSymInt 1600) (- 2 ^ 62 - 1) (Numbering.store 1600 true)
    = Throw CheckFailed (Numbering.store 1600 true).
Proof.
  assert (H5 : is_i64 5) by (unfold is_i64; lia).
  assert (Hr : is_i64 (- 2 ^ 62 - 1)) by (unfold is_i64; lia).
  pose proof (proj2 (literal_overloads_forward op_lt (mkSymInt 3) 5
                       (Numbering.store 1600 true) H5)) as Hf.
  pose proof (proj1 (literal_overloads_forward op_lt (toSymInt 1600) (- 2 ^ 62 - 1)
                       (Numbering.store 1600 true) Hr)) as Ht.
  split.
  - apply Hf. lia.
  - apply Ht. lia.
Defined.

(** With a symbolic left operand that owns its node [n] and a literal
    [d] that is not reserved, an overload wraps [d] through [n], calls
    the node method of the operator on [n] and the new node, in that
    order, and for a comparison coerces the answer with [bool_]; [!=]
    calls [eq] and negates.  The counts end as they were, but for the
    unit of the product's node. *)
Theorem literal_overloads_symbolic {B : Type} `{SymIntNodeImpl B}
    (o : cmp_op) (this : SymInt) (d : Z) (st : state B) :
  lawful (B := B) -> owned st this -> is_symbolic this = true ->
  is_i64 d -> - 2 ^ 62 <= d ->
  apply_cmp_int o this d st =
    (let n := toSymIntNodeImplUnowned this in
     let m := match o with op_ne => Node.eq | _ => method_of_cmp o end in
     let '(w, bk1) := wrap n d (backend st) in
     let '(r, bk2) := binary m n w bk1 in
     let '(v, bk3) := bool_ r bk2 in
     Ok (match o with op_ne => negb v | _ => v end)
        (mkState (refcount st) bk3
           (calls st ++ [Node.Wrap n d; Node.Binary m n w; Node.Bool_ r]))) /\
  operator_mul_int this d st =
    (let n := toSymIntNodeImplUnowned this in
     let '(w, bk1) := wrap n d (backend st) in
     let '(r, bk2) := binary Node.mul n w bk1 in
     Ok (toSymInt r)
        (mkState (incr r (refcount st)) bk2
           (calls st ++ [Node.Wrap n d; Node.Binary Node.mul n w]))).
Proof.
  intros Hl Ho Hs Hi Hd.
  assert (Hc : is_symbolic (mkSymInt d) = false) by now apply is_symbolic_false.
  pose proof (owned_concrete st (mkSymInt d) Hi Hc) as Hoc.
  assert (Hor : is_symbolic this || is_symbolic (mkSymInt d) = true)
    by now rewrite Hs.
  split.
  - rewrite apply_cmp_int_unfold, with_literal_forward by assumption.
    rewrite apply_cmp_symbolic by assumption.
    unfold spec_compare, spec_normalize. rewrite Hs, Hc. cbn [data_]. cbv zeta.
    destruct o; cbn [method_of_cmp outcome_map];
      destruct (wrap _ _ _) as [w bk1];
      destruct (binary _ _ _ _) as [r bk2];
      destruct (bool_ _ _) as [v bk3]; reflexivity.
  - unfold operator_mul_int. rewrite with_literal_forward by assumption.
    change (operator_mul this (mkSymInt d) st)
      with (apply_arith op_mul this (mkSymInt d) st).
    rewrite apply_arith_symbolic by assumption.
    unfold spec_dispatch, spec_normalize. rewrite Hs, Hc. cbn [data_ method_of_arith].
    cbv zeta. destruct (wrap _ _ _) as [w bk1].
    now destruct (binary _ _ _ _) as [r bk2].
Qed.

(** [x >= 2] and [x * 2] on a scalar at 1600. *)
Lemma literal_overloads_symbolic_witness :
  operator_ge_int (toSymInt 1600) 2 (Numbering.store 1600 true)
    = Ok true (mkState {[ 1600 := 1%positive ]} (Numbering.mk 2 true)
                 [Node.Wrap 1600 2; Node.Binary Node.ge 1600 16; Node.Bool_ 32]) /\
  operator_mul_int (toSymInt 1600) 2 (Numbering.store 1600 true)
    = Ok (toSymInt 32)
         (mkState {[ 1600 := 1%positive; 32 := 1%positive ]} (Numbering.mk 2 true)
            [Node.Wrap 1600 2; Node.Binary Node.mul 1600 16]).
Proof.
  assert (H2 : is_i64 2) by (unfold is_i64; lia).
  assert (Hd : - 2 ^ 62 <= 2) by lia.
  pose proof (literal_overloads_symbolic op_ge (toSymInt 1600) 2
                (Numbering.store 1600 true) Numbering_lawful
                Numbering_store_owned eq_refl H2 Hd) as [Hc Hm].
  split.
  - etransitivity; [exact Hc | vm_compute; reflexivity].
  - etransitivity; [exact Hm | vm_compute; reflexivity].
Defined.


(** ** Compound assignment, forcing and printing *)

Section Assignment.

Context {B : Type} `{SymIntNodeImpl B}.
Implicit Types (st : state B) (this sci s a b : SymInt).

Lemma SymInt_move_assign_spec this tmp st :
  owned st this ->
  SymInt_move_assign this tmp st =
  Ok tmp (mkState (if is_symbolic this
                   then decr (toSymIntNodeImplUnowned this) (refcount st)
                   else refcount st)
                  (backend st) (calls st)).
Proof.
  intros [Hi Ho]. unfold SymInt_move_assign.
  destruct (is_symbolic this) eqn:Hs.
  - destruct (Ho eq_refl) as [Hn Hc].
    now rewrite (bind_Ok _ _ _ _ _ (SymInt_destroy_symbolic this st Hs Hn Hc)).
  - rewrite (bind_Ok _ _ _ _ _ (SymInt_destroy_concrete this st Hs)).
    now destruct st.
Qed.

Lemma count_release this m q :
  (is_symbolic this = true -> 0 < count m (toSymIntNodeImplUnowned this)) ->
  count (if is_symbolic this then decr (toSymIntNodeImplUnowned this) m else m) q
  = count m q - unit_of this q.
Proof.
  intros Hc. unfold unit_of. destruct (is_symbolic this).
  - specialize (Hc eq_refl). rewrite count_decr.
    pose proof (count_nonneg m q). unfold ind in *.
    destruct (Z.eqb_spec (toSymIntNodeImplUnowned this) q) as [<- | Hne]; lia.
  - lia.
Qed.

(** The assignment that follows an arithmetic operator. *)
Lemma assign_after o this sci st :
  lawful (B := B) -> owned st this -> owned st sci ->
  by_value sci (fun sci' =>
    let* r := apply_arith o this sci' in
    SymInt_move_assign this r) st =
  match apply_arith o this sci st with
  | Ok r st1 =>
      Ok r (mkState (if is_symbolic this
                     then decr (toSymIntNodeImplUnowned this) (refcount st1)
                     else refcount st1)
                    (backend st1) (calls st1))
  | Throw e st1 => Throw e st1
  end.
Proof.
  intros Hl Ht Hs.
  destruct (is_symbolic sci) eqn:Hsym.
  - (* the parameter holds one more unit while the body runs *)
    destruct Hs as [Hi Ho]. destruct (Ho Hsym) as [Hn Hc].
    set (st1 := mkState (incr (toSymIntNodeImplUnowned sci) (refcount st))
                        (backend st) (calls st)).
    assert (Hgrow : forall q, count (refcount st) q <= count (refcount st1) q)
      by (intros q; unfold st1; count_solve).
    assert (Hor : is_symbolic this || is_symbolic sci = true)
      by (rewrite Hsym; apply orb_true_r).
    pose proof (apply_arith_symbolic o this sci st1 Hl
                  (owned_grow _ _ _ Hgrow Ht)
                  (owned_grow _ _ _ Hgrow (conj Hi Ho)) Hor) as H1.
    rewrite (apply_arith_symbolic o this sci st Hl Ht (conj Hi Ho) Hor).
    unfold spec_dispatch in *. unfold st1 in H1. cbn [refcount backend calls] in H1.
    destruct (spec_normalize this sci (backend st)) as [[[na nb] bk1] log].
    pose proof (proj1 (proj2 Hl) (method_of_arith o) na nb bk1) as Hv.
    destruct (binary (method_of_arith o) na nb bk1) as [r bk2]. cbn [fst] in Hv.
    pose proof (proj1 Hv) as Hr.
    set (st2 := mkState (incr r (incr (toSymIntNodeImplUnowned sci) (refcount st)))
                        bk2 (calls st ++ log ++ [Node.Binary (method_of_arith o) na nb])).
    assert (Ht2 : owned st2 this).
    { apply (owned_grow st); [|assumption]. intros q. unfold st2. count_solve. }
    pose proof (SymInt_move_assign_spec this (toSymInt r) st2 Ht2) as H2.
    assert (Hbody : (let* r0 := apply_arith o this sci in SymInt_move_assign this r0)
                      (mkState (incr (toSymIntNodeImplUnowned sci) (refcount st))
                               (backend st) (calls st))
                    = Ok (toSymInt r)
                        (mkState (if is_symbolic this
                                  then decr (toSymIntNodeImplUnowned this) (refcount st2)
                                  else refcount st2) (backend st2) (calls st2)))
      by (rewrite (bind_Ok _ _ _ _ _ H1); exact H2).
    destruct Ht as [Hit Hot].
    rewrite (by_value_symbolic sci _ st _ _ (conj Hi Ho) Hsym Hbody).
    + unfold st2. cbn [refcount backend calls]. f_equal. f_equal.
      apply count_ext. intros q.
      destruct (is_symbolic this) eqn:Hst.
      * destruct (Hot eq_refl) as [Hnt Hct]. count_solve.
      * count_solve.
    + unfold st2. cbn [refcount].
      destruct (is_symbolic this) eqn:Hst.
      * destruct (Hot eq_refl) as [Hnt Hct].
        rewrite count_decr, !count_incr, ind_refl.
        pose proof (ind_bounds (toSymIntNodeImplUnowned this) (toSymIntNodeImplUnowned sci)).
        pose proof (ind_bounds r (toSymIntNodeImplUnowned sci)). lia.
      * count_solve.
  - rewrite by_value_concrete by assumption.
    unfold bind. destruct (apply_arith o this sci st) as [r st1 | e st1] eqn:Ha;
      [|reflexivity].
    apply SymInt_move_assign_spec.
    pose proof (apply_arith_produces o this sci st Hl Ht Hs) as Hp.
    rewrite Ha in Hp. destruct Hp as [_ Hq].
    apply (owned_grow st); [|assumption].
    intros q. rewrite Hq. pose proof (unit_of_bounds r q). lia.
Qed.

End Assignment.



(** [x *= y] and [x += y] compute the product or the sum first and
    assign it after: they fail exactly when the operator fails, with the
    store the operator left and nothing assigned; otherwise the new
    value of [x] is the operator's result, and the only change to the
    counts beyond the operator's is that the unit [x] held on its old
    node, if it held one, is released.  So the count of every node is
    its old count, plus the unit of the new value, minus the unit of the
    old one; no node is touched without an owner, even when [x] is the
    only owner of its node. *)
Theorem compound_assignment_transfers {B : Type} `{SymIntNodeImpl B}
    (this sci : SymInt) (st : state B) :
  lawful (B := B) -> owned st this -> owned st sci ->
  operator_mul_assign this sci st =
    match operator_mul this sci st with
    | Ok r st1 =>
        Ok r (mkState (if is_symbolic this
                       then decr (toSymIntNodeImplUnowned this) (refcount st1)
                       else refcount st1)
                      (backend st1) (calls st1))
    | Throw e st1 => Throw e st1
    end /\
  operator_add_assign this sci st =
    match operator_add this sci st with
    | Ok r st1 =>
        Ok r (mkState (if is_symbolic this
                       then decr (toSymIntNodeImplUnowned this) (refcount st1)
                       else refcount st1)
                      (backend st1) (calls st1))
    | Throw e st1 => Throw e st1
    end /\
  (forall out st',
     operator_mul_assign this sci st = Ok out st' \/
     operator_add_assign this sci st = Ok out st' ->
     well_formed out /\
     forall q, count (refcount st') q
               = count (refcount st) q + unit_of out q - unit_of this q).
Proof.
  intros Hl Ht Hs.
  assert (Hm := assign_after op_mul this sci st Hl Ht Hs : operator_mul_assign this sci st = _).
  assert (Ha := assign_after op_add this sci st Hl Ht Hs : operator_add_assign this sci st = _).
  split; [exact Hm|]. split; [exact Ha|].
  assert (Hgen : forall o out st',
            match apply_arith o this sci st with
            | Ok r st1 =>
                Ok r (mkState (if is_symbolic this
                               then decr (toSymIntNodeImplUnowned this) (refcount st1)
                               else refcount st1) (backend st1) (calls st1))
            | Throw e st1 => Throw e st1
            end = Ok out st' ->
            well_formed out /\
            forall q, count (refcount st') q
                      = count (refcount st) q + unit_of out q - unit_of this q).
  { intros o out st' Heq.
    pose proof (apply_arith_produces o this sci st Hl Ht Hs) as Hp.
    destruct (apply_arith o this sci st) as [r st1 | e st1]; [|discriminate].
    injection Heq as <- <-. destruct Hp as [Hw Hq]. split; [assumption|].
    intros q. cbn [refcount]. rewrite count_release, Hq; [lia|].
    intros Hsym. rewrite Hq. destruct Ht as [_ Hot].
    destruct (Hot Hsym) as [_ Hc].
    pose proof (unit_of_bounds r (toSymIntNodeImplUnowned this)). lia. }
  intros out st' [Heq | Heq].
  - apply (Hgen op_mul). exact (eq_trans (eq_sym Hm) Heq).
  - apply (Hgen op_add). exact (eq_trans (eq_sym Ha) Heq).
Qed.


(** [x *= x] on the only owner of the node at 1600: the node is released
    after the product has been made. *)
Lemma compound_assignment_transfers_witness :
  operator_mul_assign (toSymInt 1600) (toSymInt 1600) (Numbering.store 1600 true)
    = Ok (toSymInt 16)
         (mkState {[ 16 := 1%positive ]} (Numbering.mk 1 true)
            [Node.Binary Node.mul 1600 1600]).
Proof.
  pose proof (compound_assignment_transfers (toSymInt 1600) (toSymInt 1600)
                (Numbering.store 1600 true) Numbering_lawful
                Numbering_store_owned Numbering_store_owned) as [Hm _].
  rewrite Hm. vm_compute. reflexivity.
Defined.


Section Forcing.

Context {B : Type} `{SymIntNodeImpl B} `{SymIntNodeForcing B}.
Implicit Types (st : state B) (this s a b : SymInt).

Lemma call_guard_int_live self file line st :
  self <> nullptr -> 0 < count (refcount st) self ->
  call_guard_int self file line st =
  Ok (fst (guard_int self file line (backend st)))
     (mkState (refcount st) (snd (guard_int self file line (backend st))) (calls st)).
Proof.
  intros Hp Hc. unfold call_guard_int.
  rewrite live_true by assumption.
  destruct (Z.eqb_spec self nullptr); [contradiction|].
  cbn [negb]. now destruct (guard_int self file line (backend st)).
Qed.

Lemma call_str_live self st :
  self <> nullptr -> 0 < count (refcount st) self ->
  call_str self st =
  Ok (fst (str self (backend st)))
     (mkState (refcount st) (snd (str self (backend st))) (calls st)).
Proof.
  intros Hp Hc. unfold call_str.
  rewrite live_true by assumption.
  destruct (Z.eqb_spec self nullptr); [contradiction|].
  cbn [negb]. now destruct (str self (backend st)).
Qed.

(** [guard_int] on a concrete scalar returns the literal without
    touching the store or the backend.  On a symbolic scalar that owns
    its node it returns what the node's [guard_int] returns, called with
    the file and the line it was given, and the handle it took is
    released: every count is as before, and only the backend state has
    moved. *)
Theorem guard_int_forces this file line st :
  (is_symbolic this = false ->
     SymInt_guard_int this file line st = Ok (data_ this) st) /\
  (is_symbolic this = true ->
   toSymIntNodeImplUnowned this <> nullptr ->
   0 < count (refcount st) (toSymIntNodeImplUnowned this) ->
     SymInt_guard_int this file line st =
       (let '(v, bk) := guard_int (toSymIntNodeImplUnowned this) file line (backend st) in
        Ok v (mkState (refcount st) bk (calls st)))).
Proof.
  split.
  - intros Hs. unfold SymInt_guard_int. now rewrite Hs.
  - intros Hs Hn Hc. unfold SymInt_guard_int. rewrite Hs. cbn [negb].
    step toSymIntNodeImpl_symbolic.
    step call_guard_int_live.
    destruct (guard_int _ _ _ _) as [v bk]. cbn [fst snd].
    step reset_live.
    unfold ret. now rewrite decr_incr.
Qed.

(** [operator<<] on a scalar that owns its node, if it has one, puts one
    item behind what the stream holds: the literal for a concrete
    scalar, with the store untouched, and for a symbolic one the text
    that [str] of its node returns, never the tagged word.  The copy
    made for the parameter and the handle read from it are released:
    every count is as before. *)
Theorem operator_shl_writes os s st :
  owned st s ->
  operator_shl os s st =
    if is_symbolic s then
      let '(txt, bk) := str (toSymIntNodeImplUnowned s) (backend st) in
      Ok (os ++ [put_string txt]) (mkState (refcount st) bk (calls st))
    else Ok (os ++ [put_int64 (data_ s)]) st.
Proof.
  intros Hown. pose proof Hown as [Hi Ho]. unfold operator_shl.
  destruct (is_symbolic s) eqn:Hs.
  - destruct (Ho eq_refl) as [Hn Hc].
    assert (Hbody :
      (if is_symbolic s then
         let* n := toSymIntNodeImpl s in
         let* txt := call_str n in
         let* _ := reset n in
         ret (os ++ [put_string txt])
       else ret (os ++ [put_int64 (as_int_unchecked s)]))
        (mkState (incr (toSymIntNodeImplUnowned s) (refcount st)) (backend st) (calls st))
      = Ok (os ++ [put_string (fst (str (toSymIntNodeImplUnowned s) (backend st)))])
           (mkState (incr (toSymIntNodeImplUnowned s) (refcount st))
                    (snd (str (toSymIntNodeImplUnowned s) (backend st))) (calls st))).
    { rewrite Hs.
      step toSymIntNodeImpl_symbolic.
      step call_str_live.
      step reset_live.
      unfold ret. now rewrite decr_incr. }
    rewrite (by_value_symbolic s _ st _ _ Hown Hs Hbody) by count_solve.
    destruct (str _ _) as [txt bk]. cbn [fst snd refcount backend calls].
    now rewrite decr_incr.
  - rewrite by_value_concrete by assumption. now rewrite Hs.
Qed.

End Forcing.

(** Forcing the literal 7 and a scalar on the node at 1600. *)
Lemma guard_int_forces_witness :
  SymInt_guard_int (mkSymInt 7) String.EmptyString 12 (Numbering.store 1600 true)
    = Ok 7 (Numbering.store 1600 true) /\
  SymInt_guard_int (toSymInt 1600) String.EmptyString 12 (Numbering.store 1600 true)
    = Ok 1600 (mkState {[ 1600 := 1%positive ]} (Numbering.mk 0 true) []).
Proof.
  pose proof (guard_int_forces (mkSymInt 7) String.EmptyString 12
                (Numbering.store 1600 true)) as [Hc _].
  pose proof (guard_int_forces (toSymInt 1600) String.EmptyString 12
                (Numbering.store 1600 true)) as [_ Hs].
  split.
  - apply Hc. vm_compute; reflexivity.
  - rewrite Hs; vm_compute; first [reflexivity | congruence].
Defined.

(** Printing a scalar on the node at 1600 after the literal 4. *)
Lemma operator_shl_writes_witness :
  operator_shl [put_int64 4] (toSymInt 1600) (Numbering.store 1600 true)
    = Ok [put_int64 4;
          put_string (String.String (Ascii.ascii_of_nat 110) String.EmptyString)]
         (mkState {[ 1600 := 1%positive ]} (Numbering.mk 0 true) []).
Proof.
  rewrite (operator_shl_writes [put_int64 4] (toSymInt 1600)
             (Numbering.store 1600 true) Numbering_store_owned).
  vm_compute. reflexivity.
Defined.


(** ** Edges of the dispatch layer *)

Section Edges.

Context {B : Type} `{SymIntNodeImpl B}.
Implicit Types (st : state B) (this s a b : SymInt).




Lemma null_scalar_value : toSymInt nullptr = mkSymInt (- 2 ^ 63).
Proof. reflexivity. Qed.

Lemma null_scalar_symbolic : is_symbolic (mkSymInt (- 2 ^ 63)) = true.
Proof. reflexivity. Qed.

Lemma null_scalar_decode : toSymIntNodeImplUnowned (mkSymInt (- 2 ^ 63)) = nullptr.
Proof. reflexivity. Qed.

Lemma toSymIntNodeImpl_null st :
  toSymIntNodeImpl (mkSymInt (- 2 ^ 63)) st = Ok nullptr st.
Proof.
  unfold toSymIntNodeImpl. rewrite null_scalar_symbolic, null_scalar_decode.
  reflexivity.
Qed.

Lemma SymInt_copy_null st :
  SymInt_copy (mkSymInt (- 2 ^ 63)) st = Ok (mkSymInt (- 2 ^ 63)) st.
Proof.
  unfold SymInt_copy. rewrite null_scalar_symbolic.
  now rewrite (bind_Ok _ _ _ _ _ (toSymIntNodeImpl_null st)).
Qed.

Lemma SymInt_destroy_null st :
  SymInt_destroy (mkSymInt (- 2 ^ 63)) st = Ok tt st.
Proof.
  unfold SymInt_destroy. now rewrite null_scalar_symbolic, null_scalar_decode.
Qed.

(** [toSymInt] takes the null handle too: the scalar it packs is the
    word [-2^63], which reads as symbolic with a null node.  Reading its
    node gives the null handle back and moves no count; negating it
    calls [neg] through the null pointer; and as the left operand of
    [normalize_symints] beside a symbolic scalar it is taken for a
    scalar without a node, so that its raw word [-2^63] is wrapped as if
    it were a literal (line 17 tests the handle, not the tag). *)
Theorem null_node_scalar b st :
  lawful (B := B) -> owned st b -> is_symbolic b = true ->
  is_symbolic (toSymInt nullptr) = true /\
  data_ (toSymInt nullptr) = - 2 ^ 63 /\
  toSymIntNodeImpl (toSymInt nullptr) st = Ok nullptr st /\
  operator_neg (toSymInt nullptr) st = Throw NullDereference st /\
  normalize_symints (toSymInt nullptr) b st =
    (let n := toSymIntNodeImplUnowned b in
     let '(w, bk) := wrap n (- 2 ^ 63) (backend st) in
     Ok (w, n)
        (mkState (incr w (incr n (refcount st))) bk
           (calls st ++ [Node.Wrap n (- 2 ^ 63)]))).
Proof.
  intros Hl Hb Hs. rewrite null_scalar_value.
  split; [apply null_scalar_symbolic|]. split; [reflexivity|].
  split; [apply toSymIntNodeImpl_null|]. split.
  - unfold operator_neg, by_value.
    rewrite (bind_Ok _ _ _ _ _ (SymInt_copy_null st)).
    rewrite null_scalar_symbolic.
    erewrite bind_Throw; [reflexivity|].
    now rewrite (bind_Ok _ _ _ _ _ (toSymIntNodeImpl_null st)).
  - destruct Hb as [Hi Ho]. destruct (Ho Hs) as [Hn Hc].
    pose proof (proj1 Hl (toSymIntNodeImplUnowned b) (- 2 ^ 63) (backend st)) as Hv.
    pose proof (proj1 Hv) as Hw.
    unfold normalize_symints, by_value.
    rewrite (bind_Ok _ _ _ _ _ (SymInt_copy_null st)).
    step SymInt_copy_symbolic.
    rewrite null_scalar_symbolic, Hs.
    rewrite !bind_assoc.
    rewrite (bind_Ok _ _ _ _ _ (toSymIntNodeImpl_null _)).
    step toSymIntNodeImpl_symbolic.
    rewrite common_of_right.
    step wrap_missing_absent.
    step wrap_missing_present.
    step retain_live. step retain_live. step reset_live. step reset_live.
    skip_ret.
    step SymInt_destroy_symbolic.
    skip_ret.
    rewrite (bind_Ok _ _ _ _ _ (SymInt_destroy_null _)).
    cbn [data_]. cbv zeta.
    destruct (wrap _ _ _) as [w bk]. cbn [fst snd] in *.
    finish.
Qed.

(** On concrete scalars the six comparisons are those of one order on
    the literals: [!=] negates [==], [>] and [>=] are [<] and [<=] with
    the operands exchanged, [<=] negates [>], exactly one of [<], [==]
    and [>] holds, and [==] holds exactly for equal scalars. *)
Theorem concrete_comparisons_order a b st :
  is_symbolic a = false -> is_symbolic b = false ->
  apply_cmp op_ne a b st = outcome_map negb (apply_cmp op_eq a b st) /\
  apply_cmp op_gt a b st = apply_cmp op_lt b a st /\
  apply_cmp op_ge a b st = apply_cmp op_le b a st /\
  apply_cmp op_le a b st = outcome_map negb (apply_cmp op_gt a b st) /\
  (exists l e g,
     apply_cmp op_lt a b st = Ok l st /\
     apply_cmp op_eq a b st = Ok e st /\
     apply_cmp op_gt a b st = Ok g st /\
     ((l = true /\ e = false /\ g = false) \/
      (l = false /\ e = true /\ g = false) \/
      (l = false /\ e = false /\ g = true))) /\
  (apply_cmp op_eq a b st = Ok true st <-> a = b).
Proof.
  intros Ha Hb.
  rewrite !apply_cmp_concrete by assumption. cbn [plain_cmp outcome_map].
  split; [reflexivity|]. split; [reflexivity|]. split; [reflexivity|].
  split; [now rewrite Z.leb_antisym|]. split.
  - eexists _, _, _. repeat (split; [reflexivity|]).
    destruct (Z.ltb_spec (data_ a) (data_ b)), (Z.eqb_spec (data_ a) (data_ b)),
      (Z.ltb_spec (data_ b) (data_ a)); try lia; auto.
  - split.
    + intros [= Heq]. apply Z.eqb_eq in Heq. destruct a, b. cbn in Heq. now subst.
    + intros ->. now rewrite Z.eqb_refl.
Qed.

(** On concrete scalars [+], [*], [min] and [max] do not depend on the
    order of the operands, failures included, and 0 and 1 are neutral:
    [a + 0], [a - 0] and [a * 1] return [a]. *)
Theorem concrete_arithmetic_laws a b st :
  is_i64 (data_ a) -> is_symbolic a = false -> is_symbolic b = false ->
  (forall o, o = op_add \/ o = op_mul \/ o = op_min \/ o = op_max ->
     apply_arith o a b st = apply_arith o b a st) /\
  apply_arith op_add a (mkSymInt 0) st = Ok a st /\
  apply_arith op_sub a (mkSymInt 0) st = Ok a st /\
  apply_arith op_mul a (mkSymInt 1) st = Ok a st.
Proof.
  intros Hi Ha Hb.
  pose proof (concrete_range a Hi Ha) as Hr.
  split.
  - intros o Ho. rewrite !apply_arith_concrete by assumption.
    destruct Ho as [-> | [-> | [-> | ->]]].
    + now rewrite Z.add_comm.
    + now rewrite Z.mul_comm.
    + now rewrite Z.min_comm.
    + now rewrite Z.max_comm.
  - rewrite !apply_arith_concrete by (assumption || reflexivity). cbn [data_].
    rewrite Z.add_0_r, Z.sub_0_r, Z.mul_1_r, !to_i64_small, !SymInt_ctor_spec
      by assumption.
    destruct (Z.ltb_spec (data_ a) (- 2 ^ 62)); [lia|].
    destruct a. now repeat split.
Qed.

End Edges.


(** The null scalar on the left of a scalar on the node at 1600. *)
Lemma null_node_scalar_witness :
  normalize_symints (toSymInt nullptr) (toSymInt 1600) (Numbering.store 1600 true)
    = Ok (16, 1600)
         (mkState {[ 1600 := 2%positive; 16 := 1%positive ]} (Numbering.mk 1 true)
            [Node.Wrap 1600 (- 2 ^ 63)]).
Proof.
  pose proof (null_node_scalar (toSymInt 1600) (Numbering.store 1600 true)
                Numbering_lawful Numbering_store_owned eq_refl)
    as (_ & _ & _ & _ & Hn).
  rewrite Hn. vm_compute. reflexivity.
Defined.

(** The comparisons of the literals 3 and 5. *)
Lemma concrete_comparisons_order_witness :
  apply_cmp op_gt (mkSymInt 3) (mkSymInt 5) (Numbering.store 16 true)
    = apply_cmp op_lt (mkSymInt 5) (mkSymInt 3) (Numbering.store 16 true).
Proof.
  apply (concrete_comparisons_order (mkSymInt 3) (mkSymInt 5) (Numbering.store 16 true));
    vm_compute; reflexivity.
Defined.

(** The sum of the literals 3 and 5, in both orders. *)
Lemma concrete_arithmetic_laws_witness :
  apply_arith op_add (mkSymInt 3) (mkSymInt 5) (Numbering.store 16 true)
    = apply_arith op_add (mkSymInt 5) (mkSymInt 3) (Numbering.store 16 true).
Proof.
  assert (Hi : is_i64 (data_ (mkSymInt 3))) by (unfold is_i64; cbn; lia).
  pose proof (concrete_arithmetic_laws (mkSymInt 3) (mkSymInt 5)
                (Numbering.store 16 true) Hi eq_refl eq_refl) as [Hc _].
  apply Hc. now left.
Defined.


Section Ownership.

Context {B : Type} `{SymIntNodeImpl B}.
Implicit Types (st : state B) (this s a b x : SymInt).

Lemma produces_owned out st st' x :
  produces (Ok out st') st -> owned st x -> owned st' out /\ owned st' x.
Proof.
  intros [[Hi Hn] Hq] Hx. split.
  - split; [assumption|]. intros Hs. split; [now apply Hn|].
    rewrite Hq, unit_of_own by assumption.
    pose proof (count_nonneg (refcount st) (toSymIntNodeImplUnowned out)). lia.
  - apply (owned_grow st); [|assumption].
    intros q. rewrite Hq. pose proof (unit_of_bounds out q). lia.
Qed.

Lemma preserves_owned {A : Type} (v : A) st st' x :
  preserves (Ok v st') st -> owned st x -> owned st' x.
Proof.
  intros Heq Hx. cbn in Heq. apply (owned_grow st); [|assumption].
  intros q. rewrite Heq. lia.
Qed.

(** The operators keep invariant I2, so that their results can be
    operands in turn: when the operands own their nodes and an operator
    returns, the scalar it returns owns its node in the store it leaves,
    and so do the operands still; after a comparison every scalar that
    owned its node owns it still. *)
Theorem operators_keep_ownership a b x st :
  lawful (B := B) -> owned st a -> owned st b -> owned st x ->
  (forall o out st', apply_arith o a b st = Ok out st' ->
     owned st' out /\ owned st' a /\ owned st' b /\ owned st' x) /\
  (forall out st', operator_neg a st = Ok out st' ->
     owned st' out /\ owned st' a /\ owned st' x) /\
  (forall out st', SymInt_copy a st = Ok out st' ->
     out = a /\ owned st' out /\ owned st' x) /\
  (forall o v st', apply_cmp o a b st = Ok v st' ->
     owned st' a /\ owned st' b /\ owned st' x).
Proof.
  intros Hl Ha Hb Hx. split; [|split; [|split]].
  - intros o out st' Heq.
    pose proof (apply_arith_produces o a b st Hl Ha Hb) as Hp. rewrite Heq in Hp.
    split; [apply (produces_owned out st st' a Hp Ha)|].
    split; [apply (produces_owned out st st' a Hp Ha)|].
    split; [apply (produces_owned out st st' b Hp Hb)|].
    apply (produces_owned out st st' x Hp Hx).
  - intros out st' Heq.
    pose proof (operator_neg_produces a st Hl Ha) as Hp. rewrite Heq in Hp.
    split; [apply (produces_owned out st st' a Hp Ha)|].
    split; [apply (produces_owned out st st' a Hp Ha)|].
    apply (produces_owned out st st' x Hp Hx).
  - intros out st' Heq.
    pose proof (SymInt_copy_produces a st Ha) as Hp. rewrite Heq in Hp.
    split.
    + destruct Ha as [Hi Ho]. destruct (is_symbolic a) eqn:Hs.
      * destruct (Ho eq_refl) as [Hn Hc].
        rewrite SymInt_copy_symbolic in Heq by assumption. congruence.
      * rewrite SymInt_copy_concrete in Heq by assumption. congruence.
    + split; [apply (produces_owned out st st' x Hp Hx)|].
      apply (produces_owned out st st' x Hp Hx).
  - intros o v st' Heq.
    pose proof (apply_cmp_preserves o a b st Hl Ha Hb) as Hp. rewrite Heq in Hp.
    split; [apply (preserves_owned v st st' a Hp Ha)|].
    split; [apply (preserves_owned v st st' b Hp Hb)|].
    apply (preserves_owned v st st' x Hp Hx).
Qed.

End Ownership.

(** The sum of a scalar on the node at 1600 with itself owns its node. *)
Lemma operators_keep_ownership_witness :
  owned (mkState {[ 1600 := 1%positive; 16 := 1%positive ]} (Numbering.mk 1 true)
           [Node.Binary Node.add 1600 1600])
        (toSymInt 16).
Proof.
  pose proof (operators_keep_ownership (toSymInt 1600) (toSymInt 1600) (toSymInt 1600)
                (Numbering.store 1600 true) Numbering_lawful
                Numbering_store_owned Numbering_store_owned Numbering_store_owned)
    as [Harith _].
  apply (Harith op_add (toSymInt 16)
           (mkState {[ 1600 := 1%positive; 16 := 1%positive ]} (Numbering.mk 1 true)
              [Node.Binary Node.add 1600 1600])).
  vm_compute. reflexivity.
Defined.
